(** * Server-Sent-Events parsing and commit filtering of the TypeScript Cody client

    Shallow embedding of
    - [parseSSE] (examples/typescript-5.7-cody-client/sse.ts), and
    - the event filter at the end of [searchCommits]
      (examples/typescript-5.7-cody-client/search.ts, lines 65-89).

    JavaScript strings are sequences of UTF-16 code units, modelled as
    [list N].  [JSON.parse] is a builtin of the runtime: the parser is a
    parameter of the development (a Section variable), so every theorem
    holds for any JSON decoder.  A small decoder for a subset of JSON is
    given at the end of the definitions and used for concrete inputs. *)

From Stdlib Require Import List String Ascii NArith ZArith Bool Lia.
Import ListNotations.
Open Scope list_scope.
Set Warnings "-register-all".

(** ** JavaScript strings *)

Abbreviation jsstring := (list N).

(** ASCII string literals as code-unit sequences. *)
Fixpoint u (s : string) : jsstring :=
  match s with
  | EmptyString => []
  | String c r => N_of_ascii c :: u r
  end.

(** [a === b] on strings. *)
Fixpoint jsstring_eqb (a b : jsstring) : bool :=
  match a, b with
  | [], [] => true
  | x :: a', y :: b' => N.eqb x y && jsstring_eqb a' b'
  | _, _ => false
  end.

(** [s.startsWith(p)]. *)
Fixpoint startsWith (s p : jsstring) : bool :=
  match p, s with
  | [], _ => true
  | c :: p', d :: s' => N.eqb c d && startsWith s' p'
  | _ :: _, [] => false
  end.

(** [s.slice(n)] for a non-negative [n]. *)
Definition slice (s : jsstring) (n : nat) : jsstring := skipn n s.

(** WhiteSpace and LineTerminator code units of ECMAScript, removed by
    [String.prototype.trim]. *)
Definition is_js_whitespace (c : N) : bool :=
  N.eqb c 9 || N.eqb c 10 || N.eqb c 11 || N.eqb c 12 || N.eqb c 13
  || N.eqb c 32 || N.eqb c 160 || N.eqb c 5760
  || (N.leb 8192 c && N.leb c 8202)
  || N.eqb c 8232 || N.eqb c 8233 || N.eqb c 8239 || N.eqb c 8287
  || N.eqb c 12288 || N.eqb c 65279.

Fixpoint trimStart (s : jsstring) : jsstring :=
  match s with
  | [] => []
  | c :: r => if is_js_whitespace c then trimStart r else s
  end.

Definition trimEnd (s : jsstring) : jsstring := rev (trimStart (rev s)).

(** [s.trim()]. *)
Definition trim (s : jsstring) : jsstring := trimEnd (trimStart s).

Definition LF : N := 10.
Definition CR : N := 13.

(** [s.split("\n")]: the pieces between the line feeds; [""] gives [[""]]. *)
Fixpoint split_nl (s : jsstring) : list jsstring :=
  match s with
  | [] => [[]]
  | c :: r =>
      let rest := split_nl r in
      if N.eqb c LF then [] :: rest
      else match rest with
           | h :: t => (c :: h) :: t
           | [] => [[c]]
           end
  end.

(** ** JSON values and JavaScript truthiness *)

(** Numbers are kept integral: no claim depends on fractional values. *)
Inductive json : Type :=
| JNull
| JBool (b : bool)
| JNumber (z : Z)
| JString (s : jsstring)
| JArray (xs : list json)
| JObject (fields : list (jsstring * json)).

Definition str_truthy (s : jsstring) : bool :=
  match s with [] => false | _ => true end.

(** [null], [false], [0] and [""] are falsy; arrays and objects are truthy. *)
Definition truthy (v : json) : bool :=
  match v with
  | JNull => false
  | JBool b => b
  | JNumber z => negb (Z.eqb z 0)
  | JString s => str_truthy s
  | JArray _ | JObject _ => true
  end.

(** ** Events and errors *)

(** [interface SSE { event: string; data: unknown }] *)
Record SSE := mkSSE { event : jsstring; data : json }.

(** [Partial<SSE>]: both fields may be absent ([undefined]). *)
Record PartialSSE := mkPartial { p_event : option jsstring; p_data : option json }.

Definition empty_partial : PartialSSE := mkPartial None None.

(** Exceptions raised by the code: [JSON.parse] throws a [SyntaxError]; a
    property read on [null] or a [for...of] over a non-iterable throws a
    [TypeError]. *)
Inductive js_error := SyntaxError (text : jsstring) | TypeError.

Inductive result (A : Type) : Type := Ok (a : A) | Err (e : js_error).
Arguments Ok {A} a.
Arguments Err {A} e.

Notation "x <- m ;; k" :=
  (match m with Ok x => k | Err e => Err e end)
  (at level 60, right associativity).

(** ** [parseSSE] *)

Section ParseSSE.

Variable json_parse : jsstring -> option json.

(** [JSON.parse(text)]. *)
Definition JSON_parse (text : jsstring) : result json :=
  match json_parse text with
  | Some v => Ok v
  | None => Err (SyntaxError text)
  end.

(** [currentEvent.event && currentEvent.data], and the object pushed when it
    holds. *)
Definition complete (c : PartialSSE) : option SSE :=
  match p_event c, p_data c with
  | Some e, Some d => if str_truthy e && truthy d then Some (mkSSE e d) else None
  | _, _ => None
  end.

(** The loop state: [events] and [currentEvent]. *)
Definition ParseState := (list SSE * PartialSSE)%type.

(** One iteration of [for (const line of lines)]. *)
Definition step (st : ParseState) (line : jsstring) : result ParseState :=
  let '(events, currentEvent) := st in
  if startsWith line (u "event:") then
    Ok (events, mkPartial (Some (trim (slice line 6))) (p_data currentEvent))
  else if startsWith line (u "data:") then
    v <- JSON_parse (trim (slice line (List.length (u "data:")))) ;;
    Ok (events, mkPartial (p_event currentEvent) (Some v))
  else if jsstring_eqb line [] then
    match complete currentEvent with
    | Some ev => Ok (events ++ [ev], empty_partial)
    | None => Ok (events, currentEvent)
    end
  else Ok (events, currentEvent).

Fixpoint run (st : ParseState) (lines : list jsstring) : result ParseState :=
  match lines with
  | [] => Ok st
  | line :: rest => st' <- step st line ;; run st' rest
  end.

(** "Push the last event if it's complete". *)
Definition finish (st : ParseState) : list SSE :=
  let '(events, currentEvent) := st in
  match complete currentEvent with
  | Some ev => events ++ [ev]
  | None => events
  end.

Definition parseSSE (reponseBody : jsstring) : result (list SSE) :=
  st <- run ([], empty_partial) (split_nl reponseBody) ;;
  Ok (finish st).

End ParseSSE.

(** ** The commit filter of [searchCommits] (search.ts, lines 75-89) *)

(** Property read [o.k] on a parsed JSON object: [JSON.parse] keeps the last
    of duplicated keys, so the last binding wins. *)
Fixpoint obj_get (k : jsstring) (fields : list (jsstring * json)) : option json :=
  match fields with
  | [] => None
  | (k', v) :: rest =>
      match obj_get k rest with
      | Some w => Some w
      | None => if jsstring_eqb k k' then Some v else None
      end
  end.

(** The values produced by [for (const match of v)]: arrays yield their
    elements, strings their characters; any other value is not iterable. *)
Definition for_of (v : json) : result (list json) :=
  match v with
  | JArray xs => Ok xs
  | JString s => Ok (map (fun c => JString [c]) s)
  | _ => Err TypeError
  end.

(** [match.type]: reading a property of [null] throws; a primitive or an
    array has no [type] property ([undefined], here [None]). *)
Definition get_type (m : json) : result (option json) :=
  match m with
  | JNull => Err TypeError
  | JObject fields => Ok (obj_get (u "type") fields)
  | _ => Ok None
  end.

(** [match.type === "commit"] *)
Definition is_commit_type (t : option json) : bool :=
  match t with
  | Some (JString s) => jsstring_eqb s (u "commit")
  | _ => false
  end.

(** The inner loop over [event.data]. *)
Fixpoint push_commits (commitResults : list json) (ms : list json) : result (list json) :=
  match ms with
  | [] => Ok commitResults
  | m :: rest =>
      t <- get_type m ;;
      push_commits (if is_commit_type t then commitResults ++ [m] else commitResults) rest
  end.

(** The outer loop over the parsed events. *)
Fixpoint filter_events (commitResults : list json) (events : list SSE) : result (list json) :=
  match events with
  | [] => Ok commitResults
  | ev :: rest =>
      if negb (jsstring_eqb (event ev) (u "matches")) then filter_events commitResults rest
      else
        ms <- for_of (data ev) ;;
        acc <- push_commits commitResults ms ;;
        filter_events acc rest
  end.

Definition commitResults (events : list SSE) : result (list json) :=
  filter_events [] events.

(** [searchCommits] from the assembled response body on: parse, then filter. *)
Definition searchCommits_of_body (json_parse : jsstring -> option json)
    (responseBody : jsstring) : result (list json) :=
  events <- parseSSE json_parse responseBody ;;
  commitResults events.

(** The Result Filter/Mapper as the spec describes it: the elements of the
    [data] arrays of the events named ["matches"] whose [type] is ["commit"],
    in order. *)
Definition spec_is_commit (m : json) : bool :=
  match m with
  | JObject fields => is_commit_type (obj_get (u "type") fields)
  | _ => false
  end.

Definition spec_commit_results (events : list SSE) : list json :=
  List.concat (map (fun ev =>
    if jsstring_eqb (event ev) (u "matches") then
      match data ev with
      | JArray xs => filter spec_is_commit xs
      | _ => []
      end
    else []) events).

(** A search record with only a [type] and an [oid]. *)
Definition record_of (type oid : string) : json :=
  JObject [(u "type", JString (u type)); (u "oid", JString (u oid))].

(** The three events of the example in section 8 of the spec. *)
Definition section8_events : list SSE :=
  [mkSSE (u "matches") (JArray [record_of "commit" "a"]);
   mkSSE (u "other") (JArray [record_of "commit" "b"]);
   mkSSE (u "matches") (JArray [record_of "file" "c"])].

(** Events with a repeated commit, a non-record element and an event of
    another name. *)
Definition repeated_commit_events : list SSE :=
  [mkSSE (u "matches") (JArray [record_of "commit" "a"; JString (u "x"); record_of "file" "c"]);
   mkSSE (u "progress") (JObject [(u "done", JBool false)]);
   mkSSE (u "matches") (JArray [record_of "commit" "a"; JArray []; record_of "commit" "d"])].

(** ** A JSON decoder and encoder for a subset of JSON

    [null], [true], [false], integers without fraction or exponent, strings
    without escapes, arrays and objects.  On this subset [json_lite_parse]
    agrees with [JSON.parse]; it rejects the rest.  Used for concrete
    inputs only. *)

Definition is_json_ws (c : N) : bool :=
  N.eqb c 9 || N.eqb c 10 || N.eqb c 13 || N.eqb c 32.

Fixpoint skip_ws (s : jsstring) : jsstring :=
  match s with
  | c :: r => if is_json_ws c then skip_ws r else s
  | [] => []
  end.

Definition is_digit (c : N) : bool := N.leb 48 c && N.leb c 57.

Fixpoint take_digits (s : jsstring) : jsstring * jsstring :=
  match s with
  | c :: r =>
      if is_digit c then let '(ds, r') := take_digits r in (c :: ds, r')
      else ([], s)
  | [] => ([], [])
  end.

Definition digits_value (ds : jsstring) : Z :=
  fold_left (fun acc c => acc * 10 + Z.of_N (c - 48))%Z ds 0%Z.

(** [0 | [1-9][0-9]*], not followed by a fraction or an exponent. *)
Definition parse_uint (s : jsstring) : option (Z * jsstring) :=
  let '(ds, r) := take_digits s in
  let ok_end := match r with
                | c :: _ => negb (N.eqb c 46 || N.eqb c 101 || N.eqb c 69)
                | [] => true
                end in
  match ds with
  | [] => None
  | d :: rest =>
      if N.eqb d 48 && str_truthy rest then None
      else if ok_end then Some (digits_value ds, r) else None
  end.

(** The characters of a string literal up to its closing quote. *)
Fixpoint take_string (s : jsstring) : option (jsstring * jsstring) :=
  match s with
  | [] => None
  | c :: r =>
      if N.eqb c 34 then Some ([], r)
      else if N.eqb c 92 || N.ltb c 32 then None
      else match take_string r with
           | Some (t, r') => Some (c :: t, r')
           | None => None
           end
  end.

Fixpoint parse_value (fuel : nat) (s : jsstring) : option (json * jsstring) :=
  match fuel with
  | O => None
  | S f =>
    match s with
    | [] => None
    | c :: r =>
      if startsWith s (u "null") then Some (JNull, skipn 4 s)
      else if startsWith s (u "true") then Some (JBool true, skipn 4 s)
      else if startsWith s (u "false") then Some (JBool false, skipn 5 s)
      else if N.eqb c 34 then
        match take_string r with
        | Some (t, r') => Some (JString t, r')
        | None => None
        end
      else if N.eqb c 45 then
        match parse_uint r with
        | Some (z, r') => Some (JNumber (- z)%Z, r')
        | None => None
        end
      else if is_digit c then
        match parse_uint s with
        | Some (z, r') => Some (JNumber z, r')
        | None => None
        end
      else if N.eqb c 91 then
        match skip_ws r with
        | d :: r' =>
          if N.eqb d 93 then Some (JArray [], r')
          else
            (fix elems (g : nat) (s : jsstring) (acc : list json) :=
               match g with
               | O => None
               | S g' =>
                 match parse_value f s with
                 | None => None
                 | Some (v, s1) =>
                   match skip_ws s1 with
                   | e :: s2 =>
                     if N.eqb e 44 then elems g' (skip_ws s2) (acc ++ [v])
                     else if N.eqb e 93 then Some (JArray (acc ++ [v]), s2)
                     else None
                   | [] => None
                   end
                 end
               end) f (d :: r') []
        | [] => None
        end
      else if N.eqb c 123 then
        match skip_ws r with
        | d :: r' =>
          if N.eqb d 125 then Some (JObject [], r')
          else
            (fix members (g : nat) (s : jsstring) (acc : list (jsstring * json)) :=
               match g with
               | O => None
               | S g' =>
                 match s with
                 | q :: s0 =>
                   if negb (N.eqb q 34) then None else
                   match take_string s0 with
                   | None => None
                   | Some (k, s1) =>
                     match skip_ws s1 with
                     | colon :: s2 =>
                       if negb (N.eqb colon 58) then None else
                       match parse_value f (skip_ws s2) with
                       | None => None
                       | Some (v, s3) =>
                         match skip_ws s3 with
                         | e :: s4 =>
                           if N.eqb e 44 then members g' (skip_ws s4) (acc ++ [(k, v)])
                           else if N.eqb e 125 then Some (JObject (acc ++ [(k, v)]), s4)
                           else None
                         | [] => None
                         end
                       end
                     | [] => None
                     end
                   end
                 | [] => None
                 end
               end) f (d :: r') []
        | [] => None
        end
      else None
    end
  end.

Definition json_lite_parse (text : jsstring) : option json :=
  match parse_value (S (List.length text)) (skip_ws text) with
  | Some (v, rest) => if jsstring_eqb (skip_ws rest) [] then Some v else None
  | None => None
  end.

Fixpoint show_N_aux (fuel : nat) (n : N) (acc : jsstring) : jsstring :=
  match fuel with
  | O => acc
  | S f =>
      let acc' := (48 + n mod 10)%N :: acc in
      if N.ltb n 10 then acc' else show_N_aux f (n / 10)%N acc'
  end.

Definition show_N (n : N) : jsstring := show_N_aux (S (N.size_nat n)) n [].

Fixpoint join (sep : jsstring) (xs : list jsstring) : jsstring :=
  match xs with
  | [] => []
  | [x] => x
  | x :: rest => x ++ sep ++ join sep rest
  end.

(** [JSON.stringify] on the subset (strings are written without escaping). *)
Fixpoint json_lite_stringify (v : json) : jsstring :=
  match v with
  | JNull => u "null"
  | JBool true => u "true"
  | JBool false => u "false"
  | JNumber z =>
      if Z.ltb z 0 then 45%N :: show_N (Z.to_N (- z)) else show_N (Z.to_N z)
  | JString s => 34%N :: s ++ [34%N]
  | JArray xs => 91%N :: join [44%N] (map json_lite_stringify xs) ++ [93%N]
  | JObject fields =>
      123%N :: join [44%N] (map (fun '(k, w) => 34%N :: k ++ [34%N; 58%N] ++ json_lite_stringify w) fields)
      ++ [125%N]
  end.

(** JSON text with [']' standing for the double quote. *)
Definition uj (s : string) : jsstring :=
  map (fun c => if N.eqb c 39 then 34%N else c) (u s).

Definition nl : jsstring := [LF].
Definition crlf : jsstring := [CR; LF].

(** ** Line classes, payloads and buffers used in the statements *)

Definition is_event_line (line : jsstring) : bool := startsWith line (u "event:").
Definition is_data_line (line : jsstring) : bool := startsWith line (u "data:").

(** The trimmed remainders read by [parseSSE]. *)
Definition event_value (line : jsstring) : jsstring := trim (slice line 6).
Definition data_text (line : jsstring) : jsstring := trim (slice line 5).

Fixpoint last_opt {A : Type} (l : list A) : option A :=
  match l with
  | [] => None
  | [x] => Some x
  | _ :: rest => last_opt rest
  end.

(** A block of lines, each terminated by a line feed, then the blank line. *)
Definition serialize_block (lines : list jsstring) : jsstring :=
  List.concat (map (fun l => l ++ nl) lines) ++ nl.

(** Lines joined by line feeds, with no line feed after the last one. *)
Definition join_lines (lines : list jsstring) : jsstring := join nl lines.

(** A block the spec calls well formed: non-empty lines without line feeds,
    exactly one [event:] line and one [data:] line, the latter valid JSON;
    [e] and [d] are its trimmed name and decoded payload. *)
Definition block_fields (json_parse : jsstring -> option json)
    (blk : list jsstring) (e : jsstring) (d : json) : Prop :=
  Forall (fun l => l <> [] /\ ~ In LF l) blk /\
  exists le ld, filter is_event_line blk = [le] /\ filter is_data_line blk = [ld] /\
    event_value le = e /\ json_parse (data_text ld) = Some d.

(** Serialising events as [event: <name>] / [data: <JSON>] / blank line. *)
Definition serializeSSE (stringify : json -> jsstring) (events : list SSE) : jsstring :=
  List.concat (map (fun ev =>
    u "event: " ++ event ev ++ nl ++ u "data: " ++ stringify (data ev) ++ nl ++ nl) events).

(** The in-progress record after a run of field lines starting from [cur]:
    the last [event:] and [data:] lines win, absent ones leave [cur]'s. *)
Definition record_after (json_parse : jsstring -> option json)
    (cur : PartialSSE) (lines : list jsstring) : PartialSSE :=
  mkPartial
    (match last_opt (filter is_event_line lines) with
     | Some l => Some (event_value l)
     | None => p_event cur
     end)
    (match last_opt (filter is_data_line lines) with
     | Some l => json_parse (data_text l)
     | None => p_data cur
     end).

(** ** Values in template literals and property reads *)

(** [Number.prototype.toString()] on an integral number below [10^21] in
    magnitude; from [10^21] on JavaScript writes an exponent form of the
    rounded double, which the exact integers of the JSON values here do not
    carry. *)
Definition number_to_string (z : Z) : jsstring :=
  if Z.ltb z 0 then 45%N :: show_N (Z.to_N (- z)) else show_N (Z.to_N z).

(** [ToString(v)], as a template literal [`${v}`] applies it to a JSON
    value.  An array is written by [Array.prototype.join(",")], left to
    right, its [null] elements as the empty string.  An object goes through
    [ToPrimitive(v, string)]: it calls [v.toString] if callable, then
    [v.valueOf].  A property of a JSON value is never callable, so an own
    [toString] property leaves only [Object.prototype.valueOf], which returns
    the object itself: [TypeError].  Otherwise [Object.prototype.toString]
    gives ["[object Object]"]. *)
Fixpoint json_to_string (v : json) : result jsstring :=
  match v with
  | JNull => Ok (u "null")
  | JBool true => Ok (u "true")
  | JBool false => Ok (u "false")
  | JNumber z => Ok (number_to_string z)
  | JString s => Ok s
  | JArray xs =>
      let fix elems (xs : list json) : result (list jsstring) :=
        match xs with
        | [] => Ok []
        | x :: rest =>
            s <- match x with JNull => Ok [] | _ => json_to_string x end ;;
            ss <- elems rest ;;
            Ok (s :: ss)
        end in
      ss <- elems xs ;;
      Ok (join [44%N] ss)
  | JObject fields =>
      match obj_get (u "toString") fields with
      | Some _ => Err TypeError
      | None => Ok (u "[object Object]")
      end
  end.

(** [`${o.k}`]: an absent property ([undefined]) is written ["undefined"]. *)
Definition template_str (o : option json) : result jsstring :=
  match o with
  | None => Ok (u "undefined")
  | Some v => json_to_string v
  end.

(** [v.k] for the record keys read by the client: reading a property of
    [null] throws; a primitive or an array has none of them. *)
Definition get_prop (v : json) (k : string) : result (option json) :=
  match v with
  | JNull => Err TypeError
  | JObject fields => Ok (obj_get (u k) fields)
  | _ => Ok None
  end.

(** [o.k] where [o] is itself the result of a property read: reading a
    property of [undefined] throws as well. *)
Definition member (o : option json) (k : string) : result (option json) :=
  match o with
  | None => Err TypeError
  | Some v => get_prop v k
  end.

(** ** [parseDiagnostic] (review.ts, lines 57-77) *)

(** [interface Diagnostic { text: string; filepath: string; url: string }] *)
Record Diagnostic := mkDiagnostic { text : jsstring; filepath : jsstring; url : jsstring }.

(** The longest prefix whose code units satisfy [p], and the rest. *)
Fixpoint span (p : N -> bool) (s : jsstring) : jsstring * jsstring :=
  match s with
  | c :: r => if p c then let '(a, b) := span p r in (c :: a, b) else ([], s)
  | [] => ([], [])
  end.

Definition strip_prefix (p s : jsstring) : option jsstring :=
  if startsWith s p then Some (skipn (List.length p) s) else None.

Definition diag_open : jsstring := uj "<DIAGNOSTIC filepath='".
Definition diag_mid : jsstring := uj "'>".
Definition diag_close : jsstring := u "</DIAGNOSTIC>".

(** One attempt of [/<DIAGNOSTIC filepath="([^"]+)">([^<]+)<\/DIAGNOSTIC>/] at
    the start of [s]: the two groups and the text after the match.  [[^"]+]
    must be followed by a ['"'] it cannot contain, so the only way it can
    match is the longest run without ['"']; likewise [[^<]+] must be followed
    by ['<']: backtracking has no other choice to try. *)
Definition diag_match_at (s : jsstring) : option (jsstring * jsstring * jsstring) :=
  match strip_prefix diag_open s with
  | None => None
  | Some s1 =>
      let '(path, s2) := span (fun c => negb (N.eqb c 34)) s1 in
      match path, strip_prefix diag_mid s2 with
      | _ :: _, Some s3 =>
          let '(body, s4) := span (fun c => negb (N.eqb c 60)) s3 in
          match body, strip_prefix diag_close s4 with
          | _ :: _, Some s5 => Some (path, body, s5)
          | _, _ => None
          end
      | _, _ => None
      end
  end.

(** The global search of [matchAll]: try each position in turn; after a
    match, go on from its end.  [fuel] bounds the number of positions. *)
Fixpoint diag_scan (fuel : nat) (s : jsstring) : list (jsstring * jsstring) :=
  match fuel with
  | O => []
  | S f =>
      match s with
      | [] => []
      | _ :: r =>
          match diag_match_at s with
          | Some (path, body, rest) => (path, body) :: diag_scan f rest
          | None => diag_scan f r
          end
      end
  end.

(** [llmResponse.matchAll(...)], each match as [(match[1], match[2])]. *)
Definition diagnostic_matches (llmResponse : jsstring) : list (jsstring * jsstring) :=
  diag_scan (List.length llmResponse) llmResponse.

(** [`${credentials.endpoint}/${commit.repository}/-/commit/${commit.oid}`]:
    each substitution is read, then converted, left to right. *)
Definition commit_url (endpoint : jsstring) (commit : json) : result jsstring :=
  repository <- get_prop commit "repository" ;;
  repository_s <- template_str repository ;;
  oid <- get_prop commit "oid" ;;
  oid_s <- template_str oid ;;
  Ok (endpoint ++ u "/" ++ repository_s ++ u "/-/commit/" ++ oid_s).

(** The loop [for (const match of matches) diagnostics.push(...)]. *)
Fixpoint push_diagnostics (endpoint : jsstring) (commit : json)
    (diagnostics : list Diagnostic) (ms : list (jsstring * jsstring)) : result (list Diagnostic) :=
  match ms with
  | [] => Ok diagnostics
  | (path, body) :: rest =>
      url <- commit_url endpoint commit ;;
      push_diagnostics endpoint commit (diagnostics ++ [mkDiagnostic body path url]) rest
  end.

(** [matchAll] always returns an iterator, so [if (!matches)] never
    returns. *)
Definition parseDiagnostic (endpoint : jsstring) (commit : json) (llmResponse : jsstring)
    : result (list Diagnostic) :=
  push_diagnostics endpoint commit [] (diagnostic_matches llmResponse).

(** ** [review] (review.ts, lines 16-55) *)

(** The message sent for a commit. *)
Definition review_prompt (authorName authorDate message content instruction : jsstring)
    : jsstring :=
  nl ++ u "You are a helpful coding assistant." ++ nl ++ nl
  ++ u "<AUTHOR>" ++ authorName ++ u "</AUTHOR>" ++ nl
  ++ u "<AUTHOR_DATE>" ++ authorDate ++ u "</AUTHOR_DATE>" ++ nl
  ++ u "<COMMIT_MESSAGE>" ++ message ++ u "</COMMIT_MESSAGE>" ++ nl
  ++ u "<DIFF_CONTENT>" ++ nl ++ content ++ nl ++ u "</DIFF_CONTENT>" ++ nl ++ nl
  ++ u "<REVIEW_INSTRUCTION>" ++ nl ++ instruction ++ nl ++ u "</REVIEW_INSTRUCTION>" ++ nl ++ nl
  ++ u "Print out a list of diagnostics based on the review instruction. Each diagnostic should be formatted as XML"
  ++ nl ++ nl
  ++ uj "<DIAGNOSTIC filepath='$FILE_PATH'>" ++ nl
  ++ u "Act on the instruction. For example, if it says produce a diff to fix the bug, print the diff here. If the instruction says,"
  ++ nl
  ++ u "come up with a test case, print the test case here. Formatted as markdown." ++ nl
  ++ u "</DIAGNOSTIC>" ++ nl.

Section Review.

(** [client.chat.completions.create({model, max_tokens: 4000, stream: false,
    messages: [{role: "user", content}]})]: the [message.content] of each
    returned choice ([None] for [null]), or a rejection. *)
Variable chat_create : jsstring -> jsstring -> result (list (option jsstring)).

Definition review (endpoint model instruction : jsstring) (commit : json)
    : result (list Diagnostic) :=
  (* [console.log(`Reviewing commit: ${commit.label}`)] *)
  label <- get_prop commit "label" ;;
  _ <- template_str label ;;
  authorName <- get_prop commit "authorName" ;;
  authorName_s <- template_str authorName ;;
  authorDate <- get_prop commit "authorDate" ;;
  authorDate_s <- template_str authorDate ;;
  message <- get_prop commit "message" ;;
  message_s <- template_str message ;;
  content <- get_prop commit "content" ;;
  content_s <- template_str content ;;
  choices <- chat_create model
    (review_prompt authorName_s authorDate_s message_s content_s instruction) ;;
  (* [completion.choices[0].message]: [undefined.message] throws *)
  first <- match choices with [] => Err TypeError | c :: _ => Ok c end ;;
  (* [?? ""] *)
  parseDiagnostic endpoint commit (match first with Some s => s | None => [] end).

(** ** The [batch-review] action (index.ts, lines 73-99) *)

(** [Number.parseInt(string, 10)]: leading white space, an optional sign,
    then the longest run of decimal digits; [None] is [NaN].  The value is
    the mathematical one (JavaScript rounds values above 2^53, which no use
    below can tell apart), and ["-0"] gives [0] where JavaScript gives [-0],
    which [slice] treats as [0]. *)
Definition parseInt10 (string : jsstring) : option Z :=
  let S := trimStart string in
  let '(sign, S') :=
    match S with
    | c :: r => if N.eqb c 45 then ((-1)%Z, r) else if N.eqb c 43 then (1%Z, r) else (1%Z, S)
    | [] => (1%Z, [])
    end in
  let '(digits, _) := take_digits S' in
  match digits with
  | [] => None
  | _ => Some (sign * digits_value digits)%Z
  end.

(** [xs.slice(0, end)]: [NaN] counts as [0], a negative end counts from the
    length, and the end is clamped to [[0, length]]. *)
Definition array_slice0 {A : Type} (xs : list A) (end_ : option Z) : list A :=
  let len := Z.of_nat (List.length xs) in
  let relativeEnd := match end_ with None => 0%Z | Some e => e end in
  let final := if Z.ltb relativeEnd 0 then Z.max (len + relativeEnd) 0 else Z.min relativeEnd len in
  firstn (Z.to_nat final) xs.

(** [commits.slice(0, Number.parseInt(maxCommits, 10))] *)
Definition batch_commits (commits : list json) (maxCommits : jsstring) : list json :=
  array_slice0 commits (parseInt10 maxCommits).

(** The diagnostics printed by the action: [Promise.all] over the reviews of
    the selected commits, a failed review caught as [[]], then [flat()]. *)
Definition batch_review (endpoint model instruction : jsstring)
    (commits : list json) (maxCommits : jsstring) : list Diagnostic :=
  List.concat (map (fun commit =>
    match review endpoint model instruction commit with
    | Ok ds => ds
    | Err _ => []
    end) (batch_commits commits maxCommits)).

(** The action from the assembled search response body on. *)
Definition batch_review_of_body (json_parse : jsstring -> option json)
    (endpoint model instruction responseBody maxCommits : jsstring) : result (list Diagnostic) :=
  commits <- searchCommits_of_body json_parse responseBody ;;
  Ok (batch_review endpoint model instruction commits maxCommits).

End Review.

(** ** [formatContext] (codyContext.ts, lines 29-39) *)

(** [`<CONTEXT_ITEM repo="${...}" start_line="${...}" end_line="${...}" path="${...}">`] *)
Definition context_header (res : json) : result jsstring :=
  blob <- get_prop res "blob" ;;
  repository <- member blob "repository" ;;
  name <- member repository "name" ;;
  name_s <- template_str name ;;
  startLine <- get_prop res "startLine" ;;
  startLine_s <- template_str startLine ;;
  endLine <- get_prop res "endLine" ;;
  endLine_s <- template_str endLine ;;
  path <- member blob "path" ;;
  path_s <- template_str path ;;
  Ok (uj "<CONTEXT_ITEM repo='" ++ name_s
      ++ uj "' start_line='" ++ startLine_s
      ++ uj "' end_line='" ++ endLine_s
      ++ uj "' path='" ++ path_s ++ uj "'>").

(** An element as [Array.prototype.join] writes it: [undefined] and [null]
    as the empty string, anything else through [ToString]. *)
Definition join_elem (o : option json) : result jsstring :=
  match o with
  | None | Some JNull => Ok []
  | Some v => json_to_string v
  end.

(** The elements of an array being joined, converted left to right. *)
Fixpoint join_elems (xs : list (option json)) : result (list jsstring) :=
  match xs with
  | [] => Ok []
  | x :: rest =>
      s <- join_elem x ;;
      ss <- join_elems rest ;;
      Ok (s :: ss)
  end.

(** The loop over [context.results]: [out] holds the values pushed, the
    header strings and [result.chunkContent] as read ([None] for
    [undefined]); they are converted when [join] runs. *)
Fixpoint push_context_items (out : list (option json)) (results : list json)
    : result (list (option json)) :=
  match results with
  | [] => Ok out
  | res :: rest =>
      header <- context_header res ;;
      chunkContent <- get_prop res "chunkContent" ;;
      push_context_items
        (out ++ [Some (JString header); chunkContent; Some (JString (u "</CONTEXT_ITEM>"))]) rest
  end.

Definition formatContext (context : json) : result jsstring :=
  results <- get_prop context "results" ;;
  rs <- match results with None => Err TypeError | Some v => for_of v end ;;
  out <- push_context_items [] rs ;;
  strs <- join_elems out ;;
  Ok (join nl strs).

(** A result of the Cody context API with the fields [formatContext] reads. *)
Definition context_result (repo path chunk : jsstring) (startLine endLine : Z) : json :=
  JObject [(u "blob", JObject [(u "path", JString path);
                               (u "repository", JObject [(u "name", JString repo)])]);
           (u "startLine", JNumber startLine); (u "endLine", JNumber endLine);
           (u "chunkContent", JString chunk)].

(** The header line of [context_result repo path chunk startLine endLine]. *)
Definition context_item_header (repo path : jsstring) (startLine endLine : Z) : jsstring :=
  uj "<CONTEXT_ITEM repo='" ++ repo
  ++ uj "' start_line='" ++ number_to_string startLine
  ++ uj "' end_line='" ++ number_to_string endLine
  ++ uj "' path='" ++ path ++ uj "'>".

(** ** Reading the search response (search.ts, lines 46-65) *)

(** The UTF-8 decoder of the Encoding Standard. *)
Record utf8_decoder := mkUtf8 {
  bytes_needed : N; bytes_seen : N; code_point : N;
  lower_boundary : N; upper_boundary : N }.

Definition utf8_init : utf8_decoder := mkUtf8 0 0 0 128 191.

Definition REPLACEMENT : N := 65533.
Definition BOM : N := 65279.

(** A byte met with no sequence in progress. *)
Definition utf8_lead (b : N) : list N * utf8_decoder :=
  if N.leb b 127 then ([b], utf8_init)
  else if N.leb 194 b && N.leb b 223 then ([], mkUtf8 1 0 (N.land b 31) 128 191)
  else if N.leb 224 b && N.leb b 239 then
    ([], mkUtf8 2 0 (N.land b 15) (if N.eqb b 224 then 160 else 128)
                                  (if N.eqb b 237 then 159 else 191))
  else if N.leb 240 b && N.leb b 244 then
    ([], mkUtf8 3 0 (N.land b 7) (if N.eqb b 240 then 144 else 128)
                                 (if N.eqb b 244 then 143 else 191))
  else ([REPLACEMENT], utf8_init).

(** The handler on one byte, in replacement mode: an error emits U+FFFD; a
    byte out of the expected range is restored to the queue and handled
    again from the reset state. *)
Definition utf8_handler (st : utf8_decoder) (b : N) : list N * utf8_decoder :=
  if N.eqb (bytes_needed st) 0 then utf8_lead b
  else if negb (N.leb (lower_boundary st) b && N.leb b (upper_boundary st)) then
    let '(o, st') := utf8_lead b in (REPLACEMENT :: o, st')
  else
    let cp := N.lor (N.shiftl (code_point st) 6) (N.land b 63) in
    let seen := (bytes_seen st + 1)%N in
    if N.eqb seen (bytes_needed st) then ([cp], utf8_init)
    else ([], mkUtf8 (bytes_needed st) seen cp 128 191).

Fixpoint utf8_run (st : utf8_decoder) (bs : list N) : list N * utf8_decoder :=
  match bs with
  | [] => ([], st)
  | b :: r =>
      let '(o1, st1) := utf8_handler st b in
      let '(o2, st2) := utf8_run st1 r in
      (o1 ++ o2, st2)
  end.

(** The code points of [bs], the end of the queue closing a sequence in
    progress with U+FFFD. *)
Definition utf8_decode (bs : list N) : list N :=
  let '(o, st) := utf8_run utf8_init bs in
  if N.eqb (bytes_needed st) 0 then o else o ++ [REPLACEMENT].

(** A leading U+FEFF is dropped ([ignoreBOM] is false). *)
Definition strip_bom (cps : list N) : list N :=
  match cps with
  | c :: r => if N.eqb c BOM then r else cps
  | [] => []
  end.

(** Code points as UTF-16 code units. *)
Definition to_utf16 (cps : list N) : jsstring :=
  List.concat (map (fun c =>
    if N.ltb c 65536 then [c]
    else [(55296 + (c - 65536) / 1024)%N; (56320 + (c - 65536) mod 1024)%N]) cps).

(** [decoder.decode(value)] without [{stream: true}]: each call starts from
    a fresh decoder and flushes it at the end. *)
Definition TextDecoder_decode (value : list Byte.byte) : jsstring :=
  to_utf16 (strip_bom (utf8_decode (map Byte.to_N value))).

(** The loop over [reader.read()], then [out.join("")]. *)
Definition read_body (chunks : list (list Byte.byte)) : jsstring :=
  List.concat (map TextDecoder_decode chunks).

(** All byte values, for statements checked byte by byte. *)
Definition all_bytes : list Byte.byte :=
  flat_map (fun n => match Byte.of_nat n with Some b => [b] | None => [] end) (seq 0 256).

(** An XML diagnostic as the prompt asks the model to write it. *)
Definition diagnostic_xml (path body : jsstring) : jsstring :=
  uj "<DIAGNOSTIC filepath='" ++ path ++ uj "'>" ++ body ++ u "</DIAGNOSTIC>".

(** A commit record of the search stream with a repository and an oid. *)
Definition sample_commit : json :=
  JObject [(u "type", JString (u "commit")); (u "repository", JString (u "r"));
           (u "oid", JString (u "x"))].

(** A chat completion that always answers with one diagnostic. *)
Definition sample_chat (model prompt : jsstring) : result (list (option jsstring)) :=
  Ok [Some (diagnostic_xml (u "a.ts") (u "fix"))].

(** One step of [digits_value]. *)
Definition digit_step (acc : Z) (c : N) : Z := (acc * 10 + Z.of_N (c - 48))%Z.

(** * Proofs *)

(** ** Strings, lines and splitting *)

Lemma u_event : u "event:" = [101; 118; 101; 110; 116; 58]%N.
Proof. reflexivity. Qed.

Lemma u_data : u "data:" = [100; 97; 116; 97; 58]%N.
Proof. reflexivity. Qed.

Lemma jsstring_eqb_eq (a b : jsstring) : jsstring_eqb a b = true <-> a = b.
Proof.
  revert b; induction a as [|x a IH]; intros [|y b]; simpl;
    split; intro H; try discriminate; try reflexivity.
  - apply andb_prop in H as [H1 H2].
    apply N.eqb_eq in H1; apply IH in H2; subst; reflexivity.
  - injection H as -> ->. rewrite N.eqb_refl. apply IH. reflexivity.
Qed.

Lemma split_nl_not_nil (s : jsstring) : split_nl s <> [].
Proof.
  destruct s as [|c r]; simpl; [discriminate|].
  destruct (N.eqb c LF); [discriminate|].
  destruct (split_nl r); discriminate.
Qed.

Lemma split_nl_noLF (l : jsstring) : ~ In LF l -> split_nl l = [l].
Proof.
  induction l as [|c l IH]; intro H; simpl; [reflexivity|].
  rewrite IH by (intro; apply H; right; assumption).
  destruct (N.eqb c LF) eqn:E; [|reflexivity].
  apply N.eqb_eq in E; subst; exfalso; apply H; left; reflexivity.
Qed.

Lemma split_nl_app (l r : jsstring) :
  ~ In LF l -> split_nl (l ++ LF :: r) = l :: split_nl r.
Proof.
  induction l as [|c l IH]; intro H; simpl.
  - reflexivity.
  - rewrite IH by (intro; apply H; right; assumption).
    destruct (N.eqb c LF) eqn:E; [|reflexivity].
    apply N.eqb_eq in E; subst; exfalso; apply H; left; reflexivity.
Qed.

Lemma join_cons_cons (sep : jsstring) (c : N) (h : jsstring) (t : list jsstring) :
  join sep ((c :: h) :: t) = c :: join sep (h :: t).
Proof. destruct t; reflexivity. Qed.

(** [s.split("\n")] loses nothing but the line feeds. *)
Lemma join_split (s : jsstring) : join_lines (split_nl s) = s.
Proof.
  unfold join_lines; induction s as [|c r IH]; [reflexivity|].
  simpl split_nl. destruct (N.eqb c LF) eqn:E.
  - apply N.eqb_eq in E; subst c.
    pose proof (split_nl_not_nil r) as Hne.
    destruct (split_nl r) as [|y t]; [contradiction|].
    rewrite <- IH. reflexivity.
  - destruct (split_nl r) as [|h t]; [simpl in IH; subst; reflexivity|].
    rewrite join_cons_cons, IH. reflexivity.
Qed.

Lemma split_noLF (s : jsstring) : Forall (fun l => ~ In LF l) (split_nl s).
Proof.
  induction s as [|c r IH]; simpl.
  - constructor; [intros []|constructor].
  - destruct (N.eqb c LF) eqn:E.
    + constructor; [intros []|exact IH].
    + destruct (split_nl r) as [|h t]; inversion IH; subst.
      * constructor; [|constructor]. intros [Hc|[]].
        subst; rewrite N.eqb_refl in E; discriminate.
      * constructor; [|assumption]. intros [Hc|Hin]; [|contradiction].
        subst; rewrite N.eqb_refl in E; discriminate.
Qed.

Lemma split_join (ls : list jsstring) :
  ls <> [] -> Forall (fun l => ~ In LF l) ls -> split_nl (join_lines ls) = ls.
Proof.
  unfold join_lines; induction ls as [|x rest IH]; intros Hne Hf; [contradiction|].
  inversion Hf; subst. destruct rest as [|y t].
  - apply split_nl_noLF; assumption.
  - change (split_nl (x ++ LF :: join nl (y :: t)) = x :: y :: t).
    rewrite split_nl_app by assumption. rewrite IH; [reflexivity|discriminate|assumption].
Qed.

Lemma serialize_block_cons (l : jsstring) (blk : list jsstring) (rest : jsstring) :
  serialize_block (l :: blk) ++ rest = l ++ LF :: (serialize_block blk ++ rest).
Proof. unfold serialize_block; simpl. rewrite <- !app_assoc. reflexivity. Qed.

Lemma split_serialize_block (blk : list jsstring) (rest : jsstring) :
  Forall (fun l => ~ In LF l) blk ->
  split_nl (serialize_block blk ++ rest) = blk ++ [] :: split_nl rest.
Proof.
  induction blk as [|l blk IH]; intro Hf.
  - reflexivity.
  - inversion Hf; subst. rewrite serialize_block_cons, split_nl_app by assumption.
    rewrite IH by assumption. reflexivity.
Qed.

(** ** Lines of the two field kinds *)

Lemma event_not_data (l : jsstring) : is_event_line l = true -> is_data_line l = false.
Proof.
  unfold is_event_line, is_data_line; rewrite u_event, u_data.
  destruct l as [|c l]; cbn [startsWith]; [discriminate|].
  intro H; apply andb_prop in H as [H _]. apply N.eqb_eq in H; subst. reflexivity.
Qed.

Lemma data_not_event (l : jsstring) : is_data_line l = true -> is_event_line l = false.
Proof.
  unfold is_event_line, is_data_line; rewrite u_event, u_data.
  destruct l as [|c l]; cbn [startsWith]; [discriminate|].
  intro H; apply andb_prop in H as [H _]. apply N.eqb_eq in H; subst. reflexivity.
Qed.

Lemma startsWith_snoc (l p : jsstring) (c : N) :
  ~ In c p -> startsWith (l ++ [c]) p = startsWith l p.
Proof.
  revert l; induction p as [|a p IH]; intros l Hc; [destruct l; reflexivity|].
  destruct l as [|b l]; simpl.
  - destruct (N.eqb a c) eqn:E; [|reflexivity].
    apply N.eqb_eq in E; subst; exfalso; apply Hc; left; reflexivity.
  - rewrite IH by (intro; apply Hc; right; assumption). reflexivity.
Qed.

Lemma last_opt_cons {A : Type} (x : A) (l : list A) :
  last_opt (x :: l) = match last_opt l with Some y => Some y | None => Some x end.
Proof.
  destruct l as [|y l]; [reflexivity|].
  change (last_opt (y :: l) = match last_opt (y :: l) with Some y => Some y | None => Some x end).
  induction l as [|z l IH] in y |- *; [reflexivity|].
  change (last_opt (z :: l) = match last_opt (z :: l) with Some y => Some y | None => Some x end).
  apply IH.
Qed.

(** ** One loop iteration of [parseSSE] *)

Section Steps.

Variable json_parse : jsstring -> option json.

Lemma step_event (evs : list SSE) (cur : PartialSSE) (l : jsstring) :
  is_event_line l = true ->
  step json_parse (evs, cur) l = Ok (evs, mkPartial (Some (event_value l)) (p_data cur)).
Proof. intro H. unfold step. unfold is_event_line in H. rewrite H. reflexivity. Qed.

Lemma step_data (evs : list SSE) (cur : PartialSSE) (l : jsstring) :
  is_data_line l = true ->
  step json_parse (evs, cur) l =
  match json_parse (data_text l) with
  | Some v => Ok (evs, mkPartial (p_event cur) (Some v))
  | None => Err (SyntaxError (data_text l))
  end.
Proof.
  intro H. pose proof (data_not_event l H) as He.
  unfold is_event_line, is_data_line in *. unfold step. rewrite He, H.
  unfold JSON_parse, data_text. destruct (json_parse _); reflexivity.
Qed.

Lemma step_other (evs : list SSE) (cur : PartialSSE) (l : jsstring) :
  is_event_line l = false -> is_data_line l = false -> l <> [] ->
  step json_parse (evs, cur) l = Ok (evs, cur).
Proof.
  intros He Hd Hne. unfold is_event_line, is_data_line in *. unfold step.
  rewrite He, Hd. destruct l; [contradiction|reflexivity].
Qed.

Lemma step_blank (evs : list SSE) (cur : PartialSSE) :
  step json_parse (evs, cur) [] =
  match complete cur with
  | Some ev => Ok (evs ++ [ev], empty_partial)
  | None => Ok (evs, cur)
  end.
Proof. unfold step. rewrite u_event, u_data. reflexivity. Qed.

Lemma run_app (st : ParseState) (a b : list jsstring) :
  run json_parse st (a ++ b) = (st' <- run json_parse st a ;; run json_parse st' b).
Proof.
  induction a as [|l a IH] in st |- *; [reflexivity|].
  simpl. destruct (step json_parse st l); [apply IH|reflexivity].
Qed.

Lemma record_after_nil (cur : PartialSSE) : record_after json_parse cur [] = cur.
Proof. destruct cur; reflexivity. Qed.

(** Field lines only fill the in-progress record: the last [event:] and
    [data:] lines win, and a field no line sets keeps its earlier value. *)
Lemma run_field_lines (evs : list SSE) (cur : PartialSSE) (blk : list jsstring) :
  Forall (fun l => l <> []) blk ->
  (forall l, In l blk -> is_data_line l = true -> json_parse (data_text l) <> None) ->
  run json_parse (evs, cur) blk = Ok (evs, record_after json_parse cur blk).
Proof.
  induction blk as [|l blk IH] in cur |- *; intros Hne Hparse.
  - simpl. rewrite record_after_nil. reflexivity.
  - inversion Hne as [|? ? Hl Hne']; subst.
    assert (Hp : forall l', In l' blk -> is_data_line l' = true ->
                 json_parse (data_text l') <> None)
      by (intros; apply Hparse; [right|]; assumption).
    unfold record_after; cbn [filter].
    destruct (is_event_line l) eqn:He.
    + rewrite (event_not_data l He). cbn [run]. rewrite step_event by assumption.
      rewrite IH by assumption. unfold record_after. cbv iota; cbn [p_event p_data].
      rewrite last_opt_cons. destruct (last_opt (filter is_event_line blk)); reflexivity.
    + destruct (is_data_line l) eqn:Hd.
      * cbn [run]. rewrite step_data by assumption.
        destruct (json_parse (data_text l)) as [v|] eqn:Hv;
          [|exfalso; eapply Hparse; [left; reflexivity|assumption|assumption]].
        rewrite IH by assumption. unfold record_after. cbv iota; cbn [p_event p_data].
        rewrite last_opt_cons. destruct (last_opt (filter is_data_line blk)); congruence.
      * cbn [run]. rewrite step_other by assumption.
        rewrite IH by assumption. reflexivity.
Qed.

(** A block of field lines followed by the blank line: the record is emitted
    and reset when complete, and kept as it is otherwise. *)
Lemma run_block_blank (evs : list SSE) (cur : PartialSSE) (blk : list jsstring) :
  Forall (fun l => l <> []) blk ->
  (forall l, In l blk -> is_data_line l = true -> json_parse (data_text l) <> None) ->
  run json_parse (evs, cur) (blk ++ [[]]) =
  match complete (record_after json_parse cur blk) with
  | Some ev => Ok (evs ++ [ev], empty_partial)
  | None => Ok (evs, record_after json_parse cur blk)
  end.
Proof.
  intros Hne Hp. rewrite run_app, run_field_lines by assumption.
  cbn [run]. rewrite step_blank.
  destruct (complete _); reflexivity.
Qed.

End Steps.

(** ** Blocks *)

Lemma startsWith_app (p x : jsstring) : startsWith (p ++ x) p = true.
Proof. induction p as [|c p IH]; [destruct x; reflexivity|]. simpl. rewrite N.eqb_refl. exact IH. Qed.

Lemma u_event_sp : u "event: " = u "event:" ++ [32%N].
Proof. reflexivity. Qed.

Lemma u_data_sp : u "data: " = u "data:" ++ [32%N].
Proof. reflexivity. Qed.

Lemma filter_nil_not_nil {A : Type} (f : A -> bool) (l : list A) (x : A) :
  filter f l = [x] -> l <> [].
Proof. intros H ->. discriminate. Qed.

Section Blocks.

Variable json_parse : jsstring -> option json.

Lemma block_fields_facts (blk : list jsstring) (e : jsstring) (d : json) :
  block_fields json_parse blk e d ->
  Forall (fun l => l <> []) blk /\ Forall (fun l => ~ In LF l) blk /\
  (forall l, In l blk -> is_data_line l = true -> json_parse (data_text l) <> None) /\
  (forall cur, record_after json_parse cur blk = mkPartial (Some e) (Some d)).
Proof.
  intros [Hf (le & ld & He & Hd & Hev & Hdv)].
  split; [|split; [|split]].
  - eapply Forall_impl; [|exact Hf]; intros l [H _]; exact H.
  - eapply Forall_impl; [|exact Hf]; intros l [_ H]; exact H.
  - intros l Hin Hl.
    assert (Hin' : In l (filter is_data_line blk)) by (apply filter_In; auto).
    rewrite Hd in Hin'. destruct Hin' as [<-|[]]. rewrite Hdv. discriminate.
  - intro cur. unfold record_after. rewrite He, Hd. simpl. rewrite Hev, Hdv. reflexivity.
Qed.

Lemma complete_truthy (e : jsstring) (d : json) :
  str_truthy e = true -> truthy d = true ->
  complete (mkPartial (Some e) (Some d)) = Some (mkSSE e d).
Proof. intros He Hd. unfold complete; simpl. rewrite He, Hd. reflexivity. Qed.

Lemma complete_falsy (e : jsstring) (d : json) :
  (e = [] \/ truthy d = false) -> complete (mkPartial (Some e) (Some d)) = None.
Proof.
  intros [->|Hd]; unfold complete; simpl; [reflexivity|].
  rewrite Hd, andb_false_r. reflexivity.
Qed.

(** Well-formed blocks, each ended by its blank line, one after the other. *)
Lemma run_blocks (blocks : list (list jsstring)) (fields : list (jsstring * json))
    (evs : list SSE) :
  Forall2 (fun blk '(e, d) =>
             block_fields json_parse blk e d /\ str_truthy e = true /\ truthy d = true)
          blocks fields ->
  run json_parse (evs, empty_partial) (split_nl (List.concat (map serialize_block blocks)))
  = Ok (evs ++ map (fun '(e, d) => mkSSE e d) fields, empty_partial).
Proof.
  intro H; induction H as [|blk [e d] blocks fields Hb _ IH] in evs |- *.
  - cbn [map List.concat split_nl run]. rewrite step_blank.
    simpl. rewrite app_nil_r. reflexivity.
  - destruct Hb as [Hb [He Hd]].
    destruct (block_fields_facts blk e d Hb) as (Hne & Hlf & Hp & Hrec).
    cbn [map List.concat]. rewrite split_serialize_block by assumption.
    replace (blk ++ [] :: split_nl (List.concat (map serialize_block blocks)))
      with ((blk ++ [[]]) ++ split_nl (List.concat (map serialize_block blocks)))
      by (rewrite <- app_assoc; reflexivity).
    rewrite run_app, run_block_blank by assumption.
    rewrite Hrec, complete_truthy by assumption.
    rewrite IH. simpl. rewrite <- app_assoc. reflexivity.
Qed.

Lemma serializeSSE_blocks (stringify : json -> jsstring) (events : list SSE) :
  serializeSSE stringify events =
  List.concat (map serialize_block
    (map (fun ev => [u "event: " ++ event ev; u "data: " ++ stringify (data ev)]) events)).
Proof.
  assert (Hpt : forall a b x y : jsstring,
            a ++ x ++ nl ++ b ++ y ++ nl ++ nl = serialize_block [a ++ x; b ++ y]).
  { intros. unfold serialize_block. cbn [map List.concat].
    rewrite app_nil_r, <- !app_assoc. reflexivity. }
  induction events as [|ev events IH]; [reflexivity|].
  unfold serializeSSE in *. cbn [map List.concat]. rewrite IH, Hpt. reflexivity.
Qed.

Lemma trim_space (x : jsstring) : trim (32%N :: x) = trim x.
Proof. reflexivity. Qed.

Lemma serialized_block_fields (stringify : json -> jsstring) (ev : SSE) :
  ~ In LF (event ev) -> trim (event ev) = event ev ->
  ~ In LF (stringify (data ev)) -> json_parse (trim (stringify (data ev))) = Some (data ev) ->
  block_fields json_parse [u "event: " ++ event ev; u "data: " ++ stringify (data ev)]
    (event ev) (data ev).
Proof.
  intros Hn Ht Hs Hp.
  assert (Hev : is_event_line (u "event: " ++ event ev) = true)
    by (unfold is_event_line; rewrite u_event_sp, <- app_assoc; apply startsWith_app).
  assert (Hdt : is_data_line (u "data: " ++ stringify (data ev)) = true)
    by (unfold is_data_line; rewrite u_data_sp, <- app_assoc; apply startsWith_app).
  split.
  - repeat constructor; try discriminate; intro Hin; apply in_app_or in Hin as [Hin|Hin];
      try contradiction; simpl in Hin; unfold LF in Hin;
      repeat (destruct Hin as [Hin|Hin]; [discriminate|]); exact Hin.
  - exists (u "event: " ++ event ev), (u "data: " ++ stringify (data ev)).
    cbn [filter]. rewrite Hev, (event_not_data _ Hev), Hdt, (data_not_event _ Hdt).
    repeat split.
    + unfold event_value. exact Ht.
    + unfold data_text. exact Hp.
Qed.

End Blocks.

(** ** Claims about [parseSSE] *)

Section ParseClaims.

Variable json_parse : jsstring -> option json.

(** C1 (amended): a buffer of N blank-line-terminated blocks, each made of
    non-empty lines with exactly one [event:] line and one [data:] line whose
    trimmed remainder is valid JSON, parses to exactly N events, in block
    order, each with its block's trimmed name and decoded data, provided the
    name is non-empty and the data is truthy (the emission test is
    [currentEvent.event && currentEvent.data]). *)
Theorem parseSSE_well_formed_blocks (blocks : list (list jsstring))
    (fields : list (jsstring * json)) :
  Forall2 (fun blk '(e, d) =>
             block_fields json_parse blk e d /\ str_truthy e = true /\ truthy d = true)
          blocks fields ->
  parseSSE json_parse (List.concat (map serialize_block blocks))
  = Ok (map (fun '(e, d) => mkSSE e d) fields).
Proof.
  intro H. unfold parseSSE. rewrite (run_blocks json_parse blocks fields [] H).
  reflexivity.
Qed.

(** C2 (amended): at the blank line ending a block, the in-progress record
    is emitted and reset only when it is complete (non-empty name, truthy
    data); otherwise nothing is emitted and the record is kept as it is, not
    discarded.  A field that no line of the block sets keeps the value it had
    before the block, so fields of an earlier incomplete block carry over. *)
Theorem parseSSE_incomplete_block_kept (evs : list SSE) (cur : PartialSSE)
    (blk : list jsstring) :
  Forall (fun l => l <> []) blk ->
  (forall l, In l blk -> is_data_line l = true -> json_parse (data_text l) <> None) ->
  run json_parse (evs, cur) (blk ++ [[]]) =
    match complete (record_after json_parse cur blk) with
    | Some ev => Ok (evs ++ [ev], empty_partial)
    | None => Ok (evs, record_after json_parse cur blk)
    end
  /\ (filter is_event_line blk = [] -> p_event (record_after json_parse cur blk) = p_event cur)
  /\ (filter is_data_line blk = [] -> p_data (record_after json_parse cur blk) = p_data cur).
Proof.
  intros Hne Hp. split; [apply run_block_blank; assumption|].
  split; intro Hf; unfold record_after; simpl; rewrite Hf; reflexivity.
Qed.

(** C3 (amended): when the lines before the final block parse without a
    JSON error, a final block with one [event:] line (non-empty name) and
    one [data:] line (truthy JSON) and no blank line after it is still
    emitted, as the last event, by the end-of-buffer flush. *)
Theorem parseSSE_final_block_flush (pre blk : list jsstring) (evs : list SSE)
    (cur : PartialSSE) (e : jsstring) (d : json) :
  Forall (fun l => ~ In LF l) pre ->
  run json_parse ([], empty_partial) pre = Ok (evs, cur) ->
  block_fields json_parse blk e d -> str_truthy e = true -> truthy d = true ->
  parseSSE json_parse (join_lines (pre ++ blk)) = Ok (evs ++ [mkSSE e d]).
Proof.
  intros Hpre Hrun Hb He Hd.
  destruct (block_fields_facts json_parse blk e d Hb) as (Hne & Hlf & Hp & Hrec).
  assert (Hblk : blk <> []).
  { destruct Hb as [_ (le & _ & Hle & _)]. exact (filter_nil_not_nil _ _ _ Hle). }
  unfold parseSSE. rewrite split_join.
  - rewrite run_app, Hrun. cbn beta iota.
    rewrite run_field_lines by assumption. rewrite Hrec.
    unfold finish. rewrite complete_truthy by assumption. reflexivity.
  - destruct blk; [contradiction|]. destruct pre; discriminate.
  - apply Forall_app; split; assumption.
Qed.

(** C6 (amended): serialising events as [event: <name>], [data: <JSON>] and
    a blank line, then parsing, gives back exactly those events, in order,
    when each name is non-empty, has no line feed and no surrounding white
    space, and each payload is truthy and is written on one line from which
    the decoder reads it back. *)
Theorem parseSSE_serializeSSE_roundtrip (stringify : json -> jsstring) (events : list SSE) :
  Forall (fun ev =>
            ~ In LF (event ev) /\ trim (event ev) = event ev /\
            str_truthy (event ev) = true /\ truthy (data ev) = true /\
            ~ In LF (stringify (data ev)) /\
            json_parse (trim (stringify (data ev))) = Some (data ev)) events ->
  parseSSE json_parse (serializeSSE stringify events) = Ok events.
Proof.
  intro H. unfold parseSSE. rewrite serializeSSE_blocks.
  rewrite (run_blocks json_parse _ (map (fun ev => (event ev, data ev)) events) []).
  - cbn beta iota. unfold finish. simpl. rewrite map_map.
    f_equal. induction events as [|[e d] events IH]; [reflexivity|].
    inversion H; subst. simpl. f_equal. apply IH. assumption.
  - induction H as [|ev events Hev _ IH]; simpl; constructor; [|exact IH].
    destruct Hev as (H1 & H2 & H3 & H4 & H5 & H6).
    split; [apply serialized_block_fields|split]; assumption.
Qed.

(** C9: a block whose [event:] name trims to the empty string, or whose
    [data:] payload decodes to a falsy value ([null], [false], [0], [""]),
    is never emitted, neither at its blank line nor at the end of the
    buffer, although both lines were seen. *)
Theorem parseSSE_falsy_block_not_emitted (evs : list SSE) (cur : PartialSSE)
    (blk : list jsstring) (le ld : jsstring) (d : json) :
  Forall (fun l => l <> []) blk ->
  filter is_event_line blk = [le] -> filter is_data_line blk = [ld] ->
  json_parse (data_text ld) = Some d ->
  (event_value le = [] \/ truthy d = false) ->
  exists cur', run json_parse (evs, cur) blk = Ok (evs, cur') /\
    p_event cur' = Some (event_value le) /\ p_data cur' = Some d /\
    step json_parse (evs, cur') [] = Ok (evs, cur') /\ finish (evs, cur') = evs.
Proof.
  intros Hne He Hd Hv Hf.
  assert (Hp : forall l, In l blk -> is_data_line l = true -> json_parse (data_text l) <> None).
  { intros l Hin Hl.
    assert (Hin' : In l (filter is_data_line blk)) by (apply filter_In; auto).
    rewrite Hd in Hin'. destruct Hin' as [<-|[]]. rewrite Hv. discriminate. }
  assert (Hrec : record_after json_parse cur blk = mkPartial (Some (event_value le)) (Some d)).
  { unfold record_after. rewrite He, Hd. simpl. rewrite Hv. reflexivity. }
  exists (record_after json_parse cur blk).
  rewrite run_field_lines by assumption. rewrite Hrec.
  split; [reflexivity|]. split; [reflexivity|]. split; [reflexivity|].
  rewrite step_blank. unfold finish. rewrite complete_falsy by assumption.
  split; reflexivity.
Qed.

End ParseClaims.

(** ** Errors and totality *)

Section Errors.

Variable json_parse : jsstring -> option json.

(** Every iteration either succeeds or throws the [SyntaxError] of a
    malformed [data:] payload. *)
Lemma step_cases (st : ParseState) (l : jsstring) :
  (exists st', step json_parse st l = Ok st') \/
  (is_data_line l = true /\ json_parse (data_text l) = None /\
   step json_parse st l = Err (SyntaxError (data_text l))).
Proof.
  destruct st as [evs cur].
  destruct (is_event_line l) eqn:He; [left; eexists; apply step_event; assumption|].
  destruct (is_data_line l) eqn:Hd.
  - rewrite step_data by assumption.
    destruct (json_parse (data_text l)) eqn:Hv; [left; eexists; reflexivity|].
    right; auto.
  - destruct l as [|c l].
    + left. rewrite step_blank. destruct (complete cur); eexists; reflexivity.
    + left. eexists. apply step_other; [assumption|assumption|discriminate].
Qed.

Lemma run_cases (st : ParseState) (lines : list jsstring) :
  (exists st', run json_parse st lines = Ok st') \/
  (exists l, In l lines /\ is_data_line l = true /\ json_parse (data_text l) = None /\
             run json_parse st lines = Err (SyntaxError (data_text l))).
Proof.
  induction lines as [|h t IH] in st |- *; [left; eexists; reflexivity|].
  cbn [run]. destruct (step_cases st h) as [[st' Hs]|(Hd & Hv & Hs)]; rewrite Hs.
  - destruct (IH st') as [Hok|(l & Hin & Hl)]; [left; exact Hok|].
    right. exists l. split; [right; exact Hin|exact Hl].
  - right. exists h. split; [left; reflexivity|auto].
Qed.

Lemma run_data_error (st : ParseState) (lines : list jsstring) (l : jsstring) :
  In l lines -> is_data_line l = true -> json_parse (data_text l) = None ->
  exists t, run json_parse st lines = Err (SyntaxError t).
Proof.
  induction lines as [|h rest IH] in st |- *; intros Hin Hd Hv; [destruct Hin|].
  cbn [run]. destruct Hin as [<-|Hin].
  - destruct st as [evs cur]. rewrite step_data, Hv by assumption. eexists; reflexivity.
  - destruct (step_cases st h) as [[st' Hs]|(_ & _ & Hs)]; rewrite Hs.
    + apply IH; assumption.
    + eexists; reflexivity.
Qed.

(** C4: a [data:] line whose trimmed remainder is not valid JSON fails the
    whole parse with the decoder's error: no event list is returned, not
    even the events completed before that line. *)
Theorem parseSSE_malformed_data_fails (reponseBody l : jsstring) :
  In l (split_nl reponseBody) -> is_data_line l = true ->
  json_parse (data_text l) = None ->
  exists t, parseSSE json_parse reponseBody = Err (SyntaxError t).
Proof.
  intros Hin Hd Hv. unfold parseSSE.
  destruct (run_data_error ([], empty_partial) _ l Hin Hd Hv) as [t Ht].
  rewrite Ht. exists t. reflexivity.
Qed.

(** C10: [parseSSE] is a total function: one pass over the finite list of
    lines of [split("\n")], ending either with the event list or with the
    [SyntaxError] of a [data:] line of the input whose payload is not valid
    JSON. *)
Theorem parseSSE_total (reponseBody : jsstring) :
  (exists events, parseSSE json_parse reponseBody = Ok events) \/
  (exists l, In l (split_nl reponseBody) /\ is_data_line l = true /\
             json_parse (data_text l) = None /\
             parseSSE json_parse reponseBody = Err (SyntaxError (data_text l))).
Proof.
  unfold parseSSE.
  destruct (run_cases ([], empty_partial) (split_nl reponseBody))
    as [[st Hst]|(l & Hin & Hd & Hv & Hst)]; rewrite Hst.
  - left. eexists. reflexivity.
  - right. exists l. auto.
Qed.

(** C7: the empty body parses to no event, and the filter then gives no
    commit. *)
Theorem parseSSE_empty_body :
  parseSSE json_parse [] = Ok [] /\ commitResults [] = Ok [] /\
  searchCommits_of_body json_parse [] = Ok [].
Proof. split; [|split]; reflexivity. Qed.

End Errors.

(** ** The commit filter *)

Lemma push_commits_filter (acc xs : list json) :
  ~ In JNull xs -> push_commits acc xs = Ok (acc ++ filter spec_is_commit xs).
Proof.
  induction xs as [|x xs IH] in acc |- *; intro Hn; [rewrite app_nil_r; reflexivity|].
  assert (Hn' : ~ In JNull xs) by (intro; apply Hn; right; assumption).
  assert (Hx : (get_type x = Ok None /\ spec_is_commit x = false)
               \/ exists fs, x = JObject fs).
  { destruct x; [exfalso; apply Hn; left; reflexivity| | | | |right; eexists; reflexivity];
      left; split; reflexivity. }
  cbn [push_commits filter].
  destruct Hx as [[Hx Hc]|[fs ->]].
  - rewrite Hx, Hc. cbn [is_commit_type]. rewrite IH by assumption. reflexivity.
  - cbn [get_type spec_is_commit].
    destruct (is_commit_type (obj_get (u "type") fs)); rewrite IH by assumption.
    + rewrite <- app_assoc. reflexivity.
    + reflexivity.
Qed.

Lemma filter_events_spec (acc : list json) (events : list SSE) :
  (forall ev, In ev events -> event ev = u "matches" ->
              exists xs, data ev = JArray xs /\ ~ In JNull xs) ->
  filter_events acc events = Ok (acc ++ spec_commit_results events).
Proof.
  induction events as [|ev events IH] in acc |- *; intro H;
    [rewrite app_nil_r; reflexivity|].
  assert (H' : forall ev', In ev' events -> event ev' = u "matches" ->
                 exists xs, data ev' = JArray xs /\ ~ In JNull xs)
    by (intros; apply H; [right|]; assumption).
  unfold spec_commit_results; cbn [filter_events map List.concat].
  fold (spec_commit_results events).
  destruct (jsstring_eqb (event ev) (u "matches")) eqn:E; cbn [negb].
  - apply jsstring_eqb_eq in E.
    destruct (H ev (or_introl eq_refl) E) as (xs & Hxs & Hn).
    rewrite Hxs. cbn [for_of]. rewrite push_commits_filter by assumption.
    rewrite IH by assumption. rewrite <- app_assoc. reflexivity.
  - rewrite IH by assumption. reflexivity.
Qed.

Lemma push_commits_err (acc ms : list json) (e : js_error) :
  push_commits acc ms = Err e -> e = TypeError.
Proof.
  revert acc; induction ms as [|m ms IH]; intro acc; cbn [push_commits]; [discriminate|].
  destruct (get_type m) as [t|e'] eqn:Et; [apply IH|].
  intro H. injection H as <-. destruct m; cbn [get_type] in Et; congruence.
Qed.

Lemma push_commits_null (acc ms : list json) :
  In JNull ms -> push_commits acc ms = Err TypeError.
Proof.
  revert acc; induction ms as [|m ms IH]; intros acc Hin; [destruct Hin|].
  cbn [push_commits]. destruct Hin as [->|Hin]; [reflexivity|].
  destruct (get_type m) as [t|e] eqn:Et.
  - apply IH. exact Hin.
  - destruct m; cbn [get_type] in Et; congruence.
Qed.

Lemma filter_events_null (acc : list json) (events : list SSE) (ev : SSE) (xs : list json) :
  In ev events -> event ev = u "matches" -> data ev = JArray xs -> In JNull xs ->
  filter_events acc events = Err TypeError.
Proof.
  revert acc; induction events as [|ev0 events IH]; intros acc Hin He Hd Hn; [destruct Hin|].
  cbn [filter_events]. destruct Hin as [Heq|Hin]; [subst ev0|].
  - assert (E : jsstring_eqb (event ev) (u "matches") = true) by (apply jsstring_eqb_eq; exact He).
    rewrite E. cbn [negb]. rewrite Hd. cbn [for_of].
    rewrite push_commits_null by exact Hn. reflexivity.
  - destruct (negb _); [apply IH; assumption|].
    destruct (for_of (data ev0)) as [ms|e] eqn:Ef.
    + destruct (push_commits acc ms) as [acc'|e] eqn:Ep.
      * apply IH; assumption.
      * apply push_commits_err in Ep. subst. reflexivity.
    + destruct (data ev0); cbn [for_of] in Ef; congruence.
Qed.

(** C5 (amended): when the [data] of every ["matches"] event is an array
    with no [null] element, the filter returns exactly the elements of those
    arrays whose [type] is ["commit"], in event order and array order, every
    occurrence kept; events with another name are skipped.  On the three
    events of section 8 it returns the single record [{type:"commit",
    oid:"a"}].  A [null] element in the [data] array of a ["matches"] event
    makes the filter throw a [TypeError]. *)
Theorem commitResults_spec :
  (forall events : list SSE,
     (forall ev, In ev events -> event ev = u "matches" ->
                 exists xs, data ev = JArray xs /\ ~ In JNull xs) ->
     commitResults events = Ok (spec_commit_results events)) /\
  commitResults section8_events = Ok [record_of "commit" "a"] /\
  (forall (events : list SSE) (ev : SSE) (xs : list json),
     In ev events -> event ev = u "matches" -> data ev = JArray xs -> In JNull xs ->
     commitResults events = Err TypeError).
Proof.
  split; [|split].
  - intros events H. unfold commitResults. apply filter_events_spec. exact H.
  - vm_compute. reflexivity.
  - intros events ev xs Hin He Hd Hn. unfold commitResults.
    exact (filter_events_null [] events ev xs Hin He Hd Hn).
Qed.

(** ** Carriage returns *)

Lemma trimStart_app (x y : jsstring) :
  trimStart (x ++ y) = match trimStart x with [] => trimStart y | t => t ++ y end.
Proof.
  induction x as [|c x IH]; [reflexivity|].
  simpl. destruct (is_js_whitespace c); [exact IH|reflexivity].
Qed.

Lemma trim_snoc_CR (x : jsstring) : trim (x ++ [CR]) = trim x.
Proof.
  unfold trim, trimEnd. rewrite trimStart_app.
  destruct (trimStart x) as [|c t] eqn:E; [reflexivity|].
  rewrite rev_app_distr. reflexivity.
Qed.

Lemma startsWith_length (l p : jsstring) :
  startsWith l p = true -> List.length p <= List.length l.
Proof.
  revert l; induction p as [|a p IH]; intros [|b l] H; simpl in *; try lia; try discriminate.
  apply andb_prop in H as [_ H]. apply IH in H. lia.
Qed.

Lemma skipn_snoc (n : nat) (l : jsstring) (c : N) :
  n <= List.length l -> skipn n (l ++ [c]) = skipn n l ++ [c].
Proof.
  intro H. rewrite skipn_app. replace (n - List.length l) with 0 by lia. reflexivity.
Qed.

Lemma CR_not_in_event : ~ In CR (u "event:").
Proof. rewrite u_event. unfold CR. simpl. intuition discriminate. Qed.

Lemma CR_not_in_data : ~ In CR (u "data:").
Proof. rewrite u_data. unfold CR. simpl. intuition discriminate. Qed.

Lemma is_event_line_CR (l : jsstring) : is_event_line (l ++ [CR]) = is_event_line l.
Proof. apply startsWith_snoc, CR_not_in_event. Qed.

Lemma is_data_line_CR (l : jsstring) : is_data_line (l ++ [CR]) = is_data_line l.
Proof. apply startsWith_snoc, CR_not_in_data. Qed.

Lemma event_value_CR (l : jsstring) :
  is_event_line l = true -> event_value (l ++ [CR]) = event_value l.
Proof.
  intro H. apply startsWith_length in H. rewrite u_event in H. simpl in H.
  unfold event_value, slice. rewrite skipn_snoc by lia. apply trim_snoc_CR.
Qed.

Lemma data_text_CR (l : jsstring) :
  is_data_line l = true -> data_text (l ++ [CR]) = data_text l.
Proof.
  intro H. apply startsWith_length in H. rewrite u_data in H. simpl in H.
  unfold data_text, slice. rewrite skipn_snoc by lia. apply trim_snoc_CR.
Qed.

Lemma filter_map_CR (f : jsstring -> bool) (ls : list jsstring) :
  (forall l, f (l ++ [CR]) = f l) ->
  filter f (map (fun l => l ++ [CR]) ls) = map (fun l => l ++ [CR]) (filter f ls).
Proof.
  intro Hf. induction ls as [|l ls IH]; [reflexivity|].
  simpl. rewrite Hf. destruct (f l); simpl; rewrite IH; reflexivity.
Qed.

Lemma last_opt_map {A B : Type} (f : A -> B) (l : list A) :
  last_opt (map f l) = option_map f (last_opt l).
Proof.
  induction l as [|x l IH]; [reflexivity|].
  rewrite map_cons, !last_opt_cons, IH. destruct (last_opt l); reflexivity.
Qed.

Lemma last_opt_In {A : Type} (l : list A) (x : A) : last_opt l = Some x -> In x l.
Proof.
  induction l as [|y l IH]; [discriminate|].
  rewrite last_opt_cons. destruct (last_opt l) eqn:E.
  - intro H; injection H as ->. right. apply IH. reflexivity.
  - intro H; injection H as ->. left. reflexivity.
Qed.

Lemma split_crlf (ls : list jsstring) :
  Forall (fun l => ~ In LF l) ls ->
  split_nl (List.concat (map (fun l => l ++ crlf) ls)) = map (fun l => l ++ [CR]) ls ++ [[]].
Proof.
  induction ls as [|l ls IH]; intro Hf; [reflexivity|].
  inversion Hf; subst. cbn [map List.concat].
  replace ((l ++ crlf) ++ List.concat (map (fun l => l ++ crlf) ls))
    with ((l ++ [CR]) ++ LF :: List.concat (map (fun l => l ++ crlf) ls))
    by (unfold crlf; rewrite <- !app_assoc; reflexivity).
  rewrite split_nl_app, IH; [reflexivity|assumption|].
  intro Hin. apply in_app_or in Hin as [Hin|[Hin|[]]]; [contradiction|discriminate].
Qed.

Section CRLF.

Variable json_parse : jsstring -> option json.

Lemma record_after_CR (cur : PartialSSE) (ls : list jsstring) :
  record_after json_parse cur (map (fun l => l ++ [CR]) ls) = record_after json_parse cur ls.
Proof.
  unfold record_after.
  rewrite (filter_map_CR is_event_line) by apply is_event_line_CR.
  rewrite (filter_map_CR is_data_line) by apply is_data_line_CR.
  rewrite !last_opt_map.
  destruct (last_opt (filter is_event_line ls)) as [le|] eqn:Ee;
  destruct (last_opt (filter is_data_line ls)) as [ld|] eqn:Ed; cbn [option_map];
    try (apply last_opt_In, filter_In in Ee as [_ Ee]);
    try (apply last_opt_In, filter_In in Ed as [_ Ed]);
    try rewrite (event_value_CR le Ee); try rewrite (data_text_CR ld Ed); reflexivity.
Qed.

(** C8 (amended): the buffer is split on "\n" only and every other code
    unit, a carriage return included, stays in its line.  A trailing "\r"
    does not defeat the [event:] / [data:] prefix tests, and [trim] removes
    it from the value read.  The separator line "\r" is not empty, so with
    "\r\n" line endings no block is ever closed: the whole buffer yields at
    most one event, made of the last [event:] and the last [data:] line. *)
Theorem parseSSE_crlf_lines :
  (forall s, join_lines (split_nl s) = s /\ Forall (fun l => ~ In LF l) (split_nl s)) /\
  (forall l, is_event_line l = true ->
             is_event_line (l ++ [CR]) = true /\ event_value (l ++ [CR]) = event_value l) /\
  (forall l, is_data_line l = true ->
             is_data_line (l ++ [CR]) = true /\ data_text (l ++ [CR]) = data_text l) /\
  (forall ls, Forall (fun l => ~ In LF l) ls ->
     (forall l, In l ls -> is_data_line l = true -> json_parse (data_text l) <> None) ->
     parseSSE json_parse (List.concat (map (fun l => l ++ crlf) ls)) =
     Ok (match complete (record_after json_parse empty_partial ls) with
         | Some ev => [ev]
         | None => []
         end)).
Proof.
  split; [intro s; split; [apply join_split|apply split_noLF]|].
  split; [intros l H; rewrite is_event_line_CR; split; [exact H|apply event_value_CR, H]|].
  split; [intros l H; rewrite is_data_line_CR; split; [exact H|apply data_text_CR, H]|].
  intros ls Hf Hp. unfold parseSSE. rewrite split_crlf by assumption.
  rewrite run_block_blank.
  - rewrite record_after_CR.
    destruct (complete (record_after json_parse empty_partial ls)) eqn:E; [reflexivity|].
    cbn beta iota. unfold finish. rewrite E. reflexivity.
  - apply Forall_forall. intros x Hx. apply in_map_iff in Hx as (l & <- & _).
    destruct l; discriminate.
  - intros x Hx Hd. apply in_map_iff in Hx as (l & <- & Hin).
    rewrite is_data_line_CR in Hd. rewrite data_text_CR by assumption.
    apply Hp; assumption.
Qed.

End CRLF.

(** ** Further properties of the client *)

(** ** The diagnostic scanner *)

Lemma span_spec (p : N -> bool) (s a b : jsstring) :
  span p s = (a, b) ->
  s = a ++ b /\ Forall (fun c => p c = true) a /\
  match b with c :: _ => p c = false | [] => True end.
Proof.
  revert a b; induction s as [|c s IH]; intros a b H; simpl in H.
  - injection H as <- <-. repeat split; constructor.
  - destruct (p c) eqn:Ep.
    + destruct (span p s) as [a' b'] eqn:Es. injection H as <- <-.
      destruct (IH a' b' eq_refl) as (-> & Hf & Hb).
      repeat split; [constructor; assumption|assumption].
    + injection H as <- <-. repeat split; [constructor|assumption].
Qed.

Lemma span_app (p : N -> bool) (a b : jsstring) :
  Forall (fun c => p c = true) a ->
  match b with c :: _ => p c = false | [] => True end ->
  span p (a ++ b) = (a, b).
Proof.
  intros Ha Hb; induction Ha as [|c a Hc Ha IH]; simpl.
  - destruct b as [|c b]; [reflexivity|]. simpl. rewrite Hb. reflexivity.
  - rewrite Hc, IH. reflexivity.
Qed.

Lemma startsWith_skipn (s p : jsstring) :
  startsWith s p = true -> s = p ++ skipn (List.length p) s.
Proof.
  revert s; induction p as [|a p IH]; intros [|b s] H; simpl in *; try discriminate.
  - reflexivity.
  - reflexivity.
  - apply andb_prop in H as [H1 H2]. apply N.eqb_eq in H1; subst.
    rewrite <- (IH s H2). reflexivity.
Qed.

Lemma strip_prefix_Some (p s r : jsstring) : strip_prefix p s = Some r -> s = p ++ r.
Proof.
  unfold strip_prefix. destruct (startsWith s p) eqn:E; [|discriminate].
  intro H; injection H as <-. apply startsWith_skipn; assumption.
Qed.

Lemma strip_prefix_app (p r : jsstring) : strip_prefix p (p ++ r) = Some r.
Proof.
  unfold strip_prefix. rewrite startsWith_app, skipn_app, skipn_all, Nat.sub_diag. reflexivity.
Qed.

Lemma not_in_Forall (c : N) (l : jsstring) :
  ~ In c l <-> Forall (fun x => negb (N.eqb x c) = true) l.
Proof.
  rewrite Forall_forall. split.
  - intros H x Hx. destruct (N.eqb x c) eqn:E; [|reflexivity].
    apply N.eqb_eq in E; subst. contradiction.
  - intros H Hc. specialize (H c Hc). rewrite N.eqb_refl in H. discriminate.
Qed.

Lemma diag_match_at_Some (s path body rest : jsstring) :
  diag_match_at s = Some (path, body, rest) ->
  s = diag_open ++ path ++ diag_mid ++ body ++ diag_close ++ rest /\
  path <> [] /\ ~ In 34%N path /\ body <> [] /\ ~ In 60%N body.
Proof.
  unfold diag_match_at.
  destruct (strip_prefix diag_open s) as [s1|] eqn:E1; [|discriminate].
  destruct (span (fun c => negb (N.eqb c 34)) s1) as [p s2] eqn:E2.
  destruct p as [|c0 p]; [discriminate|].
  destruct (strip_prefix diag_mid s2) as [s3|] eqn:E3; [|discriminate].
  destruct (span (fun c => negb (N.eqb c 60)) s3) as [t s4] eqn:E4.
  destruct t as [|c1 t]; [discriminate|].
  destruct (strip_prefix diag_close s4) as [s5|] eqn:E5; [|discriminate].
  intro H; injection H as <- <- <-.
  apply strip_prefix_Some in E1, E3, E5.
  apply span_spec in E2 as (-> & Hp & _). apply span_spec in E4 as (-> & Ht & _).
  subst. repeat split; try discriminate; apply not_in_Forall; assumption.
Qed.

Lemma diag_match_at_xml (path body rest : jsstring) :
  path <> [] -> ~ In 34%N path -> body <> [] -> ~ In 60%N body ->
  diag_match_at (diagnostic_xml path body ++ rest) = Some (path, body, rest).
Proof.
  intros Hp Hp' Hb Hb'.
  assert (E : diagnostic_xml path body ++ rest
              = diag_open ++ path ++ diag_mid ++ body ++ diag_close ++ rest)
    by (unfold diagnostic_xml; rewrite <- !app_assoc; reflexivity).
  rewrite E. unfold diag_match_at. rewrite strip_prefix_app.
  rewrite span_app; [|apply not_in_Forall; assumption|reflexivity].
  destruct path as [|c0 p]; [contradiction|].
  rewrite strip_prefix_app.
  rewrite span_app; [|apply not_in_Forall; assumption|reflexivity].
  destruct body as [|c1 t]; [contradiction|].
  rewrite strip_prefix_app. reflexivity.
Qed.

Lemma diag_match_at_other (c : N) (s : jsstring) :
  c <> 60%N -> diag_match_at (c :: s) = None.
Proof.
  intro Hc. unfold diag_match_at, strip_prefix.
  change diag_open with (60%N :: tl diag_open). cbn [startsWith].
  destruct (N.eqb 60 c) eqn:E; [apply N.eqb_eq in E; subst; contradiction|reflexivity].
Qed.

Lemma diag_match_at_shorter (s path body rest : jsstring) :
  diag_match_at s = Some (path, body, rest) -> List.length rest < List.length s.
Proof.
  intro H. apply diag_match_at_Some in H as (-> & _).
  rewrite !length_app. change (List.length diag_open) with 22. lia.
Qed.

Lemma diag_scan_fuel (f1 f2 : nat) (s : jsstring) :
  List.length s <= f1 -> List.length s <= f2 -> diag_scan f1 s = diag_scan f2 s.
Proof.
  revert f2 s; induction f1 as [|f1 IH]; intros f2 s H1 H2.
  - destruct s; [|simpl in H1; lia]. destruct f2; reflexivity.
  - destruct s as [|c r]; [destruct f2; reflexivity|].
    destruct f2 as [|f2]; [simpl in H2; lia|].
    simpl. destruct (diag_match_at (c :: r)) as [[[p t] rest]|] eqn:E.
    + apply diag_match_at_shorter in E. simpl in E, H1, H2.
      f_equal. apply IH; lia.
    + simpl in H1, H2. apply IH; lia.
Qed.

Lemma diagnostic_matches_match (s path body rest : jsstring) :
  diag_match_at s = Some (path, body, rest) ->
  diagnostic_matches s = (path, body) :: diagnostic_matches rest.
Proof.
  intro H. pose proof (diag_match_at_shorter _ _ _ _ H) as Hl.
  destruct s as [|c r]; [simpl in Hl; lia|].
  unfold diagnostic_matches. simpl List.length at 1. simpl diag_scan. rewrite H.
  f_equal. apply diag_scan_fuel; simpl in Hl; lia.
Qed.

Lemma diagnostic_matches_skip (c : N) (s : jsstring) :
  diag_match_at (c :: s) = None -> diagnostic_matches (c :: s) = diagnostic_matches s.
Proof. intro H. unfold diagnostic_matches. simpl. rewrite H. reflexivity. Qed.

Lemma diagnostic_matches_sep (sep s : jsstring) :
  ~ In 60%N sep -> diagnostic_matches (sep ++ s) = diagnostic_matches s.
Proof.
  induction sep as [|c sep IH]; intro H; [reflexivity|].
  simpl. rewrite diagnostic_matches_skip.
  - apply IH. intro; apply H; right; assumption.
  - apply diag_match_at_other. intro; apply H; left; congruence.
Qed.

Lemma diag_scan_In (f : nat) (s path body : jsstring) :
  In (path, body) (diag_scan f s) ->
  path <> [] /\ ~ In 34%N path /\ body <> [] /\ ~ In 60%N body.
Proof.
  revert s; induction f as [|f IH]; intros s H; [destruct H|].
  destruct s as [|c r]; [destruct H|]. simpl in H.
  destruct (diag_match_at (c :: r)) as [[[p t] rest]|] eqn:E.
  - destruct H as [H|H]; [|eapply IH; exact H].
    injection H as -> ->. apply diag_match_at_Some in E. tauto.
  - eapply IH; exact H.
Qed.

Lemma push_diagnostics_Ok (endpoint : jsstring) (commit : json)
    (acc ds : list Diagnostic) (ms : list (jsstring * jsstring)) :
  push_diagnostics endpoint commit acc ms = Ok ds ->
  exists ds', ds = acc ++ ds' /\
    Forall (fun d => In (filepath d, text d) ms /\ commit_url endpoint commit = Ok (url d)) ds'.
Proof.
  revert acc; induction ms as [|[p t] ms IH]; intros acc H; simpl in H.
  - injection H as <-. exists []. rewrite app_nil_r. split; [reflexivity|constructor].
  - destruct (commit_url endpoint commit) as [u0|e] eqn:Eu; [|discriminate].
    destruct (IH _ H) as (ds' & -> & Hf). exists (mkDiagnostic t p u0 :: ds').
    rewrite <- app_assoc. split; [reflexivity|].
    constructor; [split; [left|]; reflexivity|].
    eapply Forall_impl; [|exact Hf]. intros d [Hin Hd]. split; [right|]; assumption.
Qed.

Lemma push_diagnostics_url (endpoint u0 : jsstring) (commit : json)
    (acc : list Diagnostic) (ms : list (jsstring * jsstring)) :
  commit_url endpoint commit = Ok u0 ->
  push_diagnostics endpoint commit acc ms
  = Ok (acc ++ map (fun '(path, body) => mkDiagnostic body path u0) ms).
Proof.
  intro Hu; revert acc; induction ms as [|[p t] ms IH]; intro acc; simpl.
  - rewrite app_nil_r. reflexivity.
  - rewrite Hu, IH, <- app_assoc. reflexivity.
Qed.

(** X1: every diagnostic [parseDiagnostic] returns has a non-empty file
    path without a double quote, a non-empty text without a ['<'], and the
    URL of the reviewed commit. *)
Theorem parseDiagnostic_fields (endpoint : jsstring) (commit : json)
    (llmResponse : jsstring) (ds : list Diagnostic) :
  parseDiagnostic endpoint commit llmResponse = Ok ds ->
  Forall (fun d => filepath d <> [] /\ ~ In 34%N (filepath d) /\
                   text d <> [] /\ ~ In 60%N (text d) /\
                   commit_url endpoint commit = Ok (url d)) ds.
Proof.
  intro H. apply push_diagnostics_Ok in H as (ds' & -> & Hf). simpl.
  eapply Forall_impl; [|exact Hf]. intros d [Hin Hu].
  unfold diagnostic_matches in Hin. apply diag_scan_In in Hin. tauto.
Qed.

Lemma diagnostic_matches_blocks (blocks : list (jsstring * (jsstring * jsstring)))
    (trailer : jsstring) :
  Forall (fun '(sep, (path, body)) =>
            ~ In 60%N sep /\ path <> [] /\ ~ In 34%N path /\ body <> [] /\ ~ In 60%N body)
         blocks ->
  ~ In 60%N trailer ->
  diagnostic_matches
    (List.concat (map (fun '(sep, (path, body)) => sep ++ diagnostic_xml path body) blocks)
     ++ trailer)
  = map snd blocks.
Proof.
  intros Hb Ht.
  induction Hb as [|[sep [p t]] blocks [Hs [Hp [Hp' [Ht' Ht'']]]] Hb IH];
    cbn [map List.concat app].
  - rewrite <- (app_nil_r trailer), diagnostic_matches_sep by exact Ht. reflexivity.
  - rewrite <- !app_assoc, diagnostic_matches_sep by exact Hs.
    erewrite diagnostic_matches_match by (apply diag_match_at_xml; assumption).
    rewrite IH. reflexivity.
Qed.

(** X2: a response made of well-formed [<DIAGNOSTIC filepath="...">]
    elements (non-empty path without a double quote, non-empty text without
    a ['<']), separated and followed by text without a ['<'], gives back
    exactly those diagnostics, in order, each with the commit's URL. *)
Theorem parseDiagnostic_roundtrip (endpoint u0 : jsstring) (commit : json)
    (blocks : list (jsstring * (jsstring * jsstring))) (trailer : jsstring) :
  commit_url endpoint commit = Ok u0 ->
  Forall (fun '(sep, (path, body)) =>
            ~ In 60%N sep /\ path <> [] /\ ~ In 34%N path /\ body <> [] /\ ~ In 60%N body)
         blocks ->
  ~ In 60%N trailer ->
  parseDiagnostic endpoint commit
    (List.concat (map (fun '(sep, (path, body)) => sep ++ diagnostic_xml path body) blocks)
     ++ trailer)
  = Ok (map (fun '(_, (path, body)) => mkDiagnostic body path u0) blocks).
Proof.
  intros Hu Hb Ht. unfold parseDiagnostic. rewrite (push_diagnostics_url _ u0) by exact Hu.
  rewrite diagnostic_matches_blocks by assumption. rewrite map_map. simpl.
  f_equal. apply map_ext. intros [sep [p t]]. reflexivity.
Qed.

(** ** Decimal numerals *)

Lemma pos_size_nat_bound (p : positive) :
  (Z.pos p < 2 ^ Z.of_nat (Pos.size_nat p))%Z.
Proof.
  induction p as [p IH|p IH|]; simpl Pos.size_nat; try (simpl; lia);
    rewrite Nat2Z.inj_succ, Z.pow_succ_r by lia.
  - rewrite Pos2Z.inj_xI. lia.
  - rewrite Pos2Z.inj_xO. lia.
Qed.

Lemma size_nat_bound (n : N) : (Z.of_N n < 10 ^ Z.of_nat (N.size_nat n))%Z.
Proof.
  destruct n as [|p]; [simpl; lia|].
  pose proof (pos_size_nat_bound p) as H.
  assert (2 ^ Z.of_nat (Pos.size_nat p) <= 10 ^ Z.of_nat (Pos.size_nat p))%Z
    by (apply Z.pow_le_mono_l; lia).
  simpl. lia.
Qed.

Lemma show_N_aux_value (f : nat) (n : N) (acc : jsstring) :
  (Z.of_N n < 10 ^ Z.of_nat f)%Z ->
  fold_left digit_step (show_N_aux f n acc) 0%Z = fold_left digit_step acc (Z.of_N n).
Proof.
  revert n acc; induction f as [|f IH]; intros n acc H.
  - simpl in H. assert (n = 0%N) by lia. subst. reflexivity.
  - cbn [show_N_aux]. destruct (N.ltb n 10) eqn:E.
    + apply N.ltb_lt in E. cbn [fold_left]. f_equal.
      unfold digit_step. rewrite N.mod_small by lia.
      replace (48 + n - 48)%N with n by lia. reflexivity.
    + apply N.ltb_ge in E. rewrite IH.
      * cbn [fold_left]. f_equal. unfold digit_step.
        rewrite (N.add_comm 48), N.add_sub.
        rewrite N2Z.inj_div, N2Z.inj_mod. pose proof (Z.div_mod (Z.of_N n) 10). lia.
      * rewrite N2Z.inj_div. rewrite Nat2Z.inj_succ, Z.pow_succ_r in H by lia.
        apply Z.div_lt_upper_bound; lia.
Qed.

Lemma digits_value_show_N (n : N) : digits_value (show_N n) = Z.of_N n.
Proof.
  unfold digits_value, show_N. fold digit_step.
  rewrite show_N_aux_value; [reflexivity|].
  pose proof (size_nat_bound n). rewrite Nat2Z.inj_succ, Z.pow_succ_r by lia. lia.
Qed.

Lemma show_N_aux_digits (f : nat) (n : N) (acc : jsstring) :
  Forall (fun c => is_digit c = true) acc ->
  Forall (fun c => is_digit c = true) (show_N_aux f n acc).
Proof.
  revert n acc; induction f as [|f IH]; intros n acc H; [exact H|].
  assert (Hd : is_digit (48 + n mod 10) = true).
  { pose proof (N.mod_lt n 10 ltac:(lia)). unfold is_digit.
    set (m := (n mod 10)%N) in *. apply andb_true_intro; split; apply N.leb_le; lia. }
  cbn [show_N_aux]. destruct (N.ltb n 10); [constructor; assumption|].
  apply IH. constructor; assumption.
Qed.

Lemma show_N_digits (n : N) : Forall (fun c => is_digit c = true) (show_N n).
Proof. apply show_N_aux_digits. constructor. Qed.

Lemma show_N_aux_suffix (f : nat) (n : N) (acc : jsstring) :
  exists pre, show_N_aux f n acc = pre ++ acc.
Proof.
  revert n acc; induction f as [|f IH]; intros n acc; [exists []; reflexivity|].
  cbn [show_N_aux]. destruct (N.ltb n 10).
  - exists [(48 + n mod 10)%N]. reflexivity.
  - destruct (IH (n / 10)%N ((48 + n mod 10)%N :: acc)) as [pre ->].
    exists (pre ++ [(48 + n mod 10)%N]). rewrite <- app_assoc. reflexivity.
Qed.

Lemma show_N_not_nil (n : N) : show_N n <> [].
Proof.
  unfold show_N. cbn [show_N_aux]. destruct (N.ltb n 10); [discriminate|].
  destruct (show_N_aux_suffix (N.size_nat n) (n / 10) [(48 + n mod 10)%N]) as [pre ->].
  destruct pre; discriminate.
Qed.

Lemma take_digits_app (ds r : jsstring) :
  Forall (fun c => is_digit c = true) ds ->
  match r with c :: _ => is_digit c = false | [] => True end ->
  take_digits (ds ++ r) = (ds, r).
Proof.
  intros Hd Hr; induction Hd as [|c ds Hc Hd IH]; simpl.
  - destruct r as [|c r]; [reflexivity|]. simpl. rewrite Hr. reflexivity.
  - rewrite Hc, IH. reflexivity.
Qed.

Lemma take_digits_none (s : jsstring) :
  Forall (fun c => is_digit c = false) s -> fst (take_digits s) = [].
Proof. destruct 1 as [|c s Hc _]; simpl; [|rewrite Hc]; reflexivity. Qed.

Lemma digit_not_whitespace (c : N) : is_digit c = true -> is_js_whitespace c = false.
Proof.
  unfold is_digit. intro H; apply andb_prop in H as [H1 H2].
  apply N.leb_le in H1, H2.
  assert (c = 48 \/ c = 49 \/ c = 50 \/ c = 51 \/ c = 52 \/ c = 53 \/ c = 54
          \/ c = 55 \/ c = 56 \/ c = 57)%N as Hc by lia.
  repeat destruct Hc as [->|Hc]; try reflexivity. subst; reflexivity.
Qed.

Lemma trimStart_ws (ws s : jsstring) :
  Forall (fun c => is_js_whitespace c = true) ws -> trimStart (ws ++ s) = trimStart s.
Proof. induction 1 as [|c ws Hc _ IH]; [reflexivity|]. simpl. rewrite Hc. exact IH. Qed.

Lemma trimStart_suffix (s : jsstring) : exists pre, s = pre ++ trimStart s.
Proof.
  induction s as [|c s [pre IH]]; [exists []; reflexivity|]. simpl.
  destruct (is_js_whitespace c); [exists (c :: pre); rewrite IH at 1; reflexivity|].
  exists []. reflexivity.
Qed.

Lemma parseInt10_show_N (ws rest : jsstring) (n : N) :
  Forall (fun c => is_js_whitespace c = true) ws ->
  match rest with c :: _ => is_digit c = false | [] => True end ->
  parseInt10 (ws ++ show_N n ++ rest) = Some (Z.of_N n).
Proof.
  intros Hws Hr. unfold parseInt10. rewrite trimStart_ws by exact Hws.
  pose proof (show_N_digits n) as Hd. pose proof (digits_value_show_N n) as Hv.
  destruct (show_N n) as [|c t] eqn:E; [exfalso; apply (show_N_not_nil n); exact E|].
  inversion Hd as [|c' t' Hc Ht]; subst.
  cbn [app trimStart]. rewrite (digit_not_whitespace c Hc).
  assert (H45 : N.eqb c 45 = false)
    by (apply N.eqb_neq; intro; subst; discriminate Hc).
  assert (H43 : N.eqb c 43 = false)
    by (apply N.eqb_neq; intro; subst; discriminate Hc).
  rewrite H45, H43.
  pose proof (take_digits_app (c :: t) rest ltac:(constructor; assumption) Hr) as Htd.
  cbn [app] in Htd. rewrite Htd.
  rewrite Hv. f_equal. lia.
Qed.

Lemma parseInt10_neg_show_N (ws rest : jsstring) (n : N) :
  Forall (fun c => is_js_whitespace c = true) ws ->
  match rest with c :: _ => is_digit c = false | [] => True end ->
  parseInt10 (ws ++ [45%N] ++ show_N n ++ rest) = Some (- Z.of_N n)%Z.
Proof.
  intros Hws Hr. unfold parseInt10. rewrite trimStart_ws by exact Hws.
  cbn [app trimStart]. change (is_js_whitespace 45) with false. cbv iota.
  change (N.eqb 45 45) with true. cbv iota.
  rewrite take_digits_app by (exact (show_N_digits n) || exact Hr).
  destruct (show_N n) as [|c t] eqn:E; [exfalso; apply (show_N_not_nil n); exact E|].
  rewrite <- E, digits_value_show_N. f_equal; lia.
Qed.

Lemma parseInt10_no_digit (s : jsstring) :
  Forall (fun c => is_digit c = false) s -> parseInt10 s = None.
Proof.
  intro H. unfold parseInt10.
  destruct (trimStart_suffix s) as [pre Hpre].
  assert (Ht : Forall (fun c => is_digit c = false) (trimStart s))
    by (rewrite Hpre in H; apply Forall_app in H; tauto).
  destruct (trimStart s) as [|c r]; [reflexivity|].
  inversion Ht as [|c' r' Hc Hr]; subst.
  destruct (N.eqb c 45); [|destruct (N.eqb c 43)];
    [| |];
    match goal with
    | |- context [take_digits ?x] =>
        let E := fresh in
        assert (E : fst (take_digits x) = []) by (apply take_digits_none; assumption);
        destruct (take_digits x) as [[|d ds] r0]; [reflexivity|discriminate E]
    end.
Qed.

Lemma firstn_min_length {A : Type} (k : nat) (xs : list A) :
  firstn (Nat.min k (List.length xs)) xs = firstn k xs.
Proof.
  destruct (Nat.le_ge_cases k (List.length xs)).
  - rewrite Nat.min_l by assumption. reflexivity.
  - rewrite Nat.min_r by assumption. rewrite !firstn_all2 by lia. reflexivity.
Qed.

(** X5: a [--max-commits] value made of optional white space, a decimal
    numeral [n] and anything not starting with a digit selects the first
    [n] commits (all of them when there are fewer). *)
Theorem batch_commits_count (commits : list json) (ws rest : jsstring) (n : N) :
  Forall (fun c => is_js_whitespace c = true) ws ->
  match rest with c :: _ => is_digit c = false | [] => True end ->
  batch_commits commits (ws ++ show_N n ++ rest) = firstn (N.to_nat n) commits.
Proof.
  intros Hws Hr. unfold batch_commits, array_slice0.
  rewrite parseInt10_show_N by assumption.
  destruct (Z.ltb (Z.of_N n) 0) eqn:E; [apply Z.ltb_lt in E; lia|].
  rewrite <- (firstn_min_length (N.to_nat n)). f_equal.
  replace (Z.of_N n) with (Z.of_nat (N.to_nat n)) by lia.
  rewrite Z2Nat.inj_min, !Nat2Z.id. reflexivity.
Qed.

(** X6: a negative [--max-commits] value [-n], [n > 0], drops the last [n]
    commits and reviews the others (none when there are at most [n]). *)
Theorem batch_commits_negative (commits : list json) (ws rest : jsstring) (n : N) :
  (0 < n)%N ->
  Forall (fun c => is_js_whitespace c = true) ws ->
  match rest with c :: _ => is_digit c = false | [] => True end ->
  batch_commits commits (ws ++ [45%N] ++ show_N n ++ rest)
  = firstn (List.length commits - N.to_nat n) commits.
Proof.
  intros Hn Hws Hr. unfold batch_commits, array_slice0.
  rewrite parseInt10_neg_show_N by assumption.
  destruct (Z.ltb (- Z.of_N n) 0) eqn:E; [|apply Z.ltb_ge in E; lia].
  f_equal. lia.
Qed.

(** X7: a [--max-commits] value without any decimal digit ([Number.parseInt]
    gives [NaN]) selects no commit: nothing is reviewed. *)
Theorem batch_commits_nan (commits : list json) (maxCommits : jsstring) :
  Forall (fun c => is_digit c = false) maxCommits ->
  batch_commits commits maxCommits = [].
Proof.
  intro H. unfold batch_commits, array_slice0. rewrite parseInt10_no_digit by exact H.
  rewrite Z.min_l by lia. reflexivity.
Qed.

(** ** [formatContext] *)

Lemma split_nl_app_LF (x y : jsstring) :
  split_nl (x ++ LF :: y) = split_nl x ++ split_nl y.
Proof.
  induction x as [|c x IH].
  - cbn [app split_nl]. rewrite N.eqb_refl. reflexivity.
  - cbn [app split_nl]. rewrite IH. destruct (N.eqb c LF); [reflexivity|].
    pose proof (split_nl_not_nil x) as Hne.
    destruct (split_nl x) as [|h t]; [contradiction|]. reflexivity.
Qed.

Lemma split_nl_join (ls : list jsstring) :
  ls <> [] -> split_nl (join nl ls) = List.concat (map split_nl ls).
Proof.
  induction ls as [|x ls IH]; intro H; [contradiction|].
  destruct ls as [|y ls].
  - simpl. rewrite app_nil_r. reflexivity.
  - change (join nl (x :: y :: ls)) with (x ++ LF :: join nl (y :: ls)).
    rewrite split_nl_app_LF, IH by discriminate. reflexivity.
Qed.

Lemma number_to_string_noLF (z : Z) : ~ In LF (number_to_string z).
Proof.
  assert (H : forall n, ~ In LF (show_N n)).
  { intros n Hin. pose proof (show_N_digits n) as Hd. rewrite Forall_forall in Hd.
    specialize (Hd LF Hin). discriminate Hd. }
  unfold number_to_string. destruct (Z.ltb z 0).
  - intros [Hc|Hin]; [discriminate Hc|exact (H _ Hin)].
  - apply H.
Qed.

Lemma context_item_header_noLF (repo path : jsstring) (startLine endLine : Z) :
  ~ In LF repo -> ~ In LF path -> ~ In LF (context_item_header repo path startLine endLine).
Proof.
  intros Hr Hp. unfold context_item_header.
  pose proof (number_to_string_noLF startLine) as Hs.
  pose proof (number_to_string_noLF endLine) as He.
  repeat rewrite in_app_iff.
  intros Hin; repeat destruct Hin as [Hin|Hin]; try contradiction;
    vm_compute in Hin; repeat destruct Hin as [Hin|Hin]; discriminate.
Qed.

Lemma context_header_result (repo path chunk : jsstring) (startLine endLine : Z) :
  context_header (context_result repo path chunk startLine endLine)
  = Ok (context_item_header repo path startLine endLine).
Proof. reflexivity. Qed.

Lemma push_context_items_results (acc : list (option json))
    (items : list (jsstring * jsstring * jsstring * Z * Z)) :
  push_context_items acc
    (map (fun '(repo, path, chunk, startLine, endLine) =>
            context_result repo path chunk startLine endLine) items)
  = Ok (acc ++ map (fun s => Some (JString s))
          (List.concat (map (fun '(repo, path, chunk, startLine, endLine) =>
             [context_item_header repo path startLine endLine; chunk; u "</CONTEXT_ITEM>"])
           items))).
Proof.
  revert acc; induction items as [|[[[[repo path] chunk] sl] el] items IH]; intro acc.
  - rewrite app_nil_r. reflexivity.
  - cbn [map push_context_items]. rewrite context_header_result.
    change (get_prop (context_result repo path chunk sl el) "chunkContent")
      with (Ok (A := option json) (Some (JString chunk))).
    cbv iota. rewrite IH. cbn [List.concat map]. rewrite map_app, <- app_assoc. reflexivity.
Qed.

Lemma join_elems_strings (ss : list jsstring) :
  join_elems (map (fun s => Some (JString s)) ss) = Ok ss.
Proof. induction ss as [|s ss IH]; [reflexivity|]. cbn. rewrite IH. reflexivity. Qed.

Lemma jsstring_eqb_refl (s : jsstring) : jsstring_eqb s s = true.
Proof. apply jsstring_eqb_eq. reflexivity. Qed.

Lemma split_context_items (items : list (jsstring * jsstring * jsstring * Z * Z)) :
  Forall (fun '(repo, path, _, _, _) => ~ In LF repo /\ ~ In LF path) items ->
  List.concat (map split_nl (List.concat (map (fun '(repo, path, chunk, startLine, endLine) =>
      [context_item_header repo path startLine endLine; chunk; u "</CONTEXT_ITEM>"]) items)))
  = List.concat (map (fun '(repo, path, chunk, startLine, endLine) =>
      [context_item_header repo path startLine endLine] ++ split_nl chunk
      ++ [u "</CONTEXT_ITEM>"]) items).
Proof.
  induction 1 as [|[[[[repo path] chunk] sl] el] items [Hr Hp] _ IH]; [reflexivity|].
  cbn [map List.concat]. rewrite map_app, concat_app, IH.
  cbn [map List.concat]. rewrite app_nil_r.
  rewrite (split_nl_noLF (context_item_header _ _ _ _))
    by (apply context_item_header_noLF; assumption).
  rewrite (split_nl_noLF (u "</CONTEXT_ITEM>"))
    by (vm_compute; intuition discriminate).
  rewrite <- !app_assoc. reflexivity.
Qed.

Lemma get_prop_err (v : json) (k : string) (e : js_error) :
  get_prop v k = Err e -> e = TypeError.
Proof. destruct v; simpl; intro H; congruence. Qed.

Lemma member_err (o : option json) (k : string) (e : js_error) :
  member o k = Err e -> e = TypeError.
Proof. destruct o; simpl; [apply get_prop_err|congruence]. Qed.

Lemma json_to_string_err (v : json) : forall e, json_to_string v = Err e -> e = TypeError.
Proof.
  revert v. fix IH 1. intros v e. destruct v as [|b|z|s|xs|fields].
  - discriminate.
  - destruct b; discriminate.
  - discriminate.
  - discriminate.
  - cbn [json_to_string].
    assert (Hl : (fix elems (xs : list json) : result (list jsstring) :=
                    match xs with
                    | [] => Ok []
                    | x :: rest =>
                        s <- match x with JNull => Ok [] | _ => json_to_string x end ;;
                        ss <- elems rest ;;
                        Ok (s :: ss)
                    end) xs = Err e -> e = TypeError).
    { revert xs e. fix IHl 1. intros [|x rest] e; [discriminate|]. cbn beta iota.
      destruct (match x with JNull => Ok [] | _ => json_to_string x end) as [s|e'] eqn:Ex.
      - destruct (_ rest) as [ss|e''] eqn:Er; [discriminate|].
        intro H. assert (He : e'' = e) by congruence.
        rewrite <- He. exact (IHl rest e'' Er).
      - clear IHl. intro H. assert (He : e' = e) by congruence. rewrite <- He.
        pose proof (IH x e') as Hx.
        destruct x; [discriminate Ex|exact (Hx Ex)..]. }
    destruct (_ xs) as [ss|e'] eqn:E; [discriminate|].
    intro H. assert (He : e' = e) by congruence. subst e'. exact (Hl eq_refl).
  - cbn [json_to_string]. destruct (obj_get _ fields); congruence.
Qed.

Lemma template_str_err (o : option json) (e : js_error) :
  template_str o = Err e -> e = TypeError.
Proof. destruct o; simpl; [apply json_to_string_err|congruence]. Qed.

Ltac err_is_TypeError :=
  repeat match goal with
  | |- context [match ?m with Ok _ => _ | Err _ => _ end] =>
      let E := fresh "E" in
      let e := fresh "e" in
      let H := fresh "H" in
      destruct m as [?|e] eqn:E;
      [|intro H; injection H as <-;
        first [ eapply get_prop_err; eassumption
              | eapply member_err; eassumption
              | eapply template_str_err; eassumption ]]
  end.

Lemma context_header_err (r : json) (e : js_error) :
  context_header r = Err e -> e = TypeError.
Proof. unfold context_header. err_is_TypeError. discriminate. Qed.

Lemma push_context_items_err (acc : list (option json)) (rs : list json) (r : json) :
  In r rs -> context_header r = Err TypeError -> push_context_items acc rs = Err TypeError.
Proof.
  revert acc; induction rs as [|r0 rs IH]; intros acc Hin Hr; [destruct Hin|].
  cbn [push_context_items].
  destruct (context_header r0) as [h|e] eqn:Eh.
  - destruct Hin as [<-|Hin]; [congruence|].
    destruct (get_prop r0 "chunkContent") as [c|e] eqn:Ec.
    + apply IH; assumption.
    + apply get_prop_err in Ec. subst. reflexivity.
  - apply context_header_err in Eh. subst. reflexivity.
Qed.

(** X3: for results whose repository names and paths hold no line feed,
    the lines of the text [formatContext] returns are, for each result in
    order, its [<CONTEXT_ITEM ...>] header line, the lines of its chunk, and
    the line [</CONTEXT_ITEM>]. *)
Theorem formatContext_lines (items : list (jsstring * jsstring * jsstring * Z * Z)) :
  items <> [] ->
  Forall (fun '(repo, path, _, _, _) => ~ In LF repo /\ ~ In LF path) items ->
  exists s,
    formatContext (JObject [(u "results", JArray (map (fun '(repo, path, chunk, startLine, endLine) =>
                      context_result repo path chunk startLine endLine) items))]) = Ok s /\
    split_nl s = List.concat (map (fun '(repo, path, chunk, startLine, endLine) =>
                   [context_item_header repo path startLine endLine] ++ split_nl chunk
                   ++ [u "</CONTEXT_ITEM>"]) items).
Proof.
  intros Hne Hf. eexists. split.
  - unfold formatContext. cbn [get_prop obj_get]. rewrite jsstring_eqb_refl.
    cbn [for_of]. rewrite push_context_items_results. cbv beta iota.
    rewrite app_nil_l, join_elems_strings. reflexivity.
  - rewrite split_nl_join.
    + apply split_context_items. exact Hf.
    + destruct items as [|[[[[repo path] chunk] sl] el] items]; [contradiction|]. discriminate.
Qed.

(** X4: [formatContext] throws a [TypeError] when one of the results is
    [null] or has no [blob]. *)
Theorem formatContext_missing_blob (results : list json) (r : json) :
  In r results -> r = JNull \/ get_prop r "blob" = Ok None ->
  formatContext (JObject [(u "results", JArray results)]) = Err TypeError.
Proof.
  intros Hin Hr. unfold formatContext. cbn [get_prop obj_get]. rewrite jsstring_eqb_refl.
  cbn [for_of]. rewrite (push_context_items_err [] results r Hin); [reflexivity|].
  destruct Hr as [->|Hr]; [reflexivity|]. unfold context_header. rewrite Hr. reflexivity.
Qed.

(** ** The [batch-review] pipeline *)

Definition commit_record (c : json) : Prop :=
  exists t, get_type c = Ok t /\ is_commit_type t = true.

Lemma push_commits_records (acc ms cs : list json) :
  Forall commit_record acc -> push_commits acc ms = Ok cs -> Forall commit_record cs.
Proof.
  revert acc; induction ms as [|m ms IH]; intros acc Hacc H; simpl in H.
  - injection H as <-. exact Hacc.
  - destruct (get_type m) as [t|e] eqn:Et; [|discriminate].
    refine (IH _ _ H).
    destruct (is_commit_type t) eqn:Ec; [|exact Hacc].
    apply Forall_app. split; [exact Hacc|].
    constructor; [exists t; split; assumption|constructor].
Qed.

Lemma filter_events_records (acc : list json) (events : list SSE) (cs : list json) :
  Forall commit_record acc -> filter_events acc events = Ok cs -> Forall commit_record cs.
Proof.
  revert acc; induction events as [|ev events IH]; intros acc Hacc H; simpl in H.
  - injection H as <-. exact Hacc.
  - destruct (negb _); [exact (IH _ Hacc H)|].
    destruct (for_of (data ev)) as [ms|e]; [|discriminate].
    destruct (push_commits acc ms) as [acc'|e] eqn:Ep; [|discriminate].
    exact (IH _ (push_commits_records _ _ _ Hacc Ep) H).
Qed.

Lemma searchCommits_records (json_parse : jsstring -> option json) (body : jsstring)
    (commits : list json) :
  searchCommits_of_body json_parse body = Ok commits -> Forall commit_record commits.
Proof.
  unfold searchCommits_of_body. destruct (parseSSE json_parse body) as [events|e]; [|discriminate].
  apply filter_events_records. constructor.
Qed.

Lemma parseDiagnostic_Ok_urls (endpoint : jsstring) (commit : json) (llmResponse : jsstring)
    (ds : list Diagnostic) :
  parseDiagnostic endpoint commit llmResponse = Ok ds ->
  Forall (fun d => commit_url endpoint commit = Ok (url d)) ds.
Proof.
  intro H. apply push_diagnostics_Ok in H as (ds' & -> & Hf). simpl.
  eapply Forall_impl; [|exact Hf]. intros d [_ Hu]. exact Hu.
Qed.

Section BatchProofs.

Variable chat_create : jsstring -> jsstring -> result (list (option jsstring)).

Lemma review_Ok (endpoint model instruction : jsstring) (commit : json) (ds : list Diagnostic) :
  review chat_create endpoint model instruction commit = Ok ds ->
  exists reply, parseDiagnostic endpoint commit reply = Ok ds.
Proof.
  unfold review.
  repeat match goal with
  | |- (match ?m with Ok _ => _ | Err _ => _ end) = _ -> _ =>
      destruct m as [?|?]; [|discriminate]
  end.
  intro H. eexists. exact H.
Qed.

Lemma In_batch_review (endpoint model instruction : jsstring) (commits : list json)
    (maxCommits : jsstring) (d : Diagnostic) :
  In d (batch_review chat_create endpoint model instruction commits maxCommits) ->
  exists c, In c (batch_commits commits maxCommits) /\ commit_url endpoint c = Ok (url d).
Proof.
  unfold batch_review. rewrite in_concat. intros (ds & Hds & Hd).
  apply in_map_iff in Hds as (c & Hc & Hin). exists c. split; [exact Hin|].
  destruct (review chat_create endpoint model instruction c) as [ds'|e] eqn:Er;
    [|subst; destruct Hd].
  subst ds'. apply review_Ok in Er as [reply Hr].
  apply parseDiagnostic_Ok_urls in Hr. rewrite Forall_forall in Hr. exact (Hr d Hd).
Qed.

Lemma firstn_In_incl {A} (n : nat) (xs : list A) (x : A) : In x (firstn n xs) -> In x xs.
Proof.
  intro H. rewrite <- (firstn_skipn n xs). apply in_or_app. left. exact H.
Qed.

Lemma In_batch_commits (commits : list json) (maxCommits : jsstring) (c : json) :
  In c (batch_commits commits maxCommits) -> In c commits.
Proof.
  unfold batch_commits, array_slice0. apply firstn_In_incl.
Qed.

(** X8: every diagnostic printed by [batch-review] carries the URL of one
    of the commits it selected from the search stream, and that commit is a
    record whose [type] is ["commit"]. *)
Theorem batch_review_urls (json_parse : jsstring -> option json)
    (endpoint model instruction responseBody maxCommits : jsstring)
    (ds : list Diagnostic) (d : Diagnostic) :
  batch_review_of_body chat_create json_parse endpoint model instruction responseBody maxCommits
  = Ok ds ->
  In d ds ->
  exists commits c,
    searchCommits_of_body json_parse responseBody = Ok commits /\
    In c (batch_commits commits maxCommits) /\
    (exists t, get_type c = Ok t /\ is_commit_type t = true) /\
    commit_url endpoint c = Ok (url d).
Proof.
  unfold batch_review_of_body.
  destruct (searchCommits_of_body json_parse responseBody) as [commits|e] eqn:Es;
    [|discriminate].
  intros H Hd. injection H as <-.
  destruct (In_batch_review _ _ _ _ _ _ Hd) as (c & Hc & Hu).
  exists commits, c. repeat split; try assumption.
  apply searchCommits_records in Es. rewrite Forall_forall in Es.
  exact (Es c (In_batch_commits _ _ _ Hc)).
Qed.

End BatchProofs.

(** ** Decoding the response chunks *)

Lemma utf8_run_app (st : utf8_decoder) (a b : list N) :
  utf8_run st (a ++ b)
  = let '(o1, s1) := utf8_run st a in let '(o2, s2) := utf8_run s1 b in (o1 ++ o2, s2).
Proof.
  revert st; induction a as [|x a IH]; intro st; simpl.
  - destruct (utf8_run st b); reflexivity.
  - destruct (utf8_handler st x) as [o1 s1]. rewrite IH.
    destruct (utf8_run s1 a) as [o2 s2]. destruct (utf8_run s2 b) as [o3 s3].
    rewrite app_assoc. reflexivity.
Qed.

Lemma utf8_decode_app (a b : list N) :
  snd (utf8_run utf8_init a) = utf8_init ->
  utf8_decode (a ++ b) = utf8_decode a ++ utf8_decode b.
Proof.
  intro H. unfold utf8_decode. rewrite utf8_run_app.
  destruct (utf8_run utf8_init a) as [o1 s1]. simpl in H. subst s1.
  destruct (utf8_run utf8_init b) as [o2 s2]. cbn [bytes_needed utf8_init N.eqb].
  destruct (N.eqb (bytes_needed s2) 0); [reflexivity|]. rewrite app_assoc. reflexivity.
Qed.

Lemma utf8_decode_concat (cs : list (list N)) :
  Forall (fun c => snd (utf8_run utf8_init c) = utf8_init) cs ->
  utf8_decode (List.concat cs) = List.concat (map utf8_decode cs).
Proof.
  induction 1 as [|c cs Hc _ IH]; [reflexivity|].
  cbn [List.concat map]. rewrite utf8_decode_app by exact Hc. rewrite IH. reflexivity.
Qed.

Lemma to_utf16_app (x y : list N) : to_utf16 (x ++ y) = to_utf16 x ++ to_utf16 y.
Proof. unfold to_utf16. rewrite map_app, concat_app. reflexivity. Qed.

Lemma to_utf16_concat (xs : list (list N)) :
  to_utf16 (List.concat xs) = List.concat (map to_utf16 xs).
Proof.
  induction xs as [|x xs IH]; [reflexivity|].
  cbn [List.concat map]. rewrite to_utf16_app, IH. reflexivity.
Qed.

Lemma strip_bom_id (y : list N) : hd_error y <> Some BOM -> strip_bom y = y.
Proof.
  destruct y as [|c y]; intro H; [reflexivity|]. simpl.
  destruct (N.eqb c BOM) eqn:E; [apply N.eqb_eq in E; subst; contradiction|reflexivity].
Qed.

Lemma strip_bom_app (x y : list N) :
  hd_error y <> Some BOM -> strip_bom (x ++ y) = strip_bom x ++ y.
Proof.
  intro H. destruct x as [|c x]; [apply strip_bom_id; exact H|]. simpl.
  destruct (N.eqb c BOM); reflexivity.
Qed.

Lemma hd_concat_not_BOM (ys : list (list N)) :
  Forall (fun y => hd_error y <> Some BOM) ys -> hd_error (List.concat ys) <> Some BOM.
Proof.
  induction 1 as [|y ys Hy _ IH]; [discriminate|].
  destruct y as [|c y]; [exact IH|]. exact Hy.
Qed.

(** X9: when every chunk of the response ends on a character boundary and
    no chunk after the first begins with U+FEFF, decoding chunk by chunk and
    joining gives the decoding of the whole byte stream. *)
Theorem read_body_chunks (chunks : list (list Byte.byte)) :
  Forall (fun c => snd (utf8_run utf8_init (map Byte.to_N c)) = utf8_init) chunks ->
  Forall (fun c => hd_error (utf8_decode (map Byte.to_N c)) <> Some BOM) (tl chunks) ->
  read_body chunks = TextDecoder_decode (List.concat chunks).
Proof.
  intros Hb Hh. destruct chunks as [|c1 rest]; [reflexivity|].
  inversion Hb as [|c' r' Hc1 Hrest]; subst. simpl tl in Hh.
  unfold read_body, TextDecoder_decode. cbn [map List.concat].
  rewrite map_app, utf8_decode_app by exact Hc1.
  rewrite concat_map, utf8_decode_concat by (apply Forall_map; exact Hrest).
  rewrite strip_bom_app.
  - rewrite to_utf16_app. f_equal.
    rewrite to_utf16_concat, !map_map. f_equal. apply map_ext_in.
    intros c Hin. rewrite Forall_forall in Hh. rewrite strip_bom_id by exact (Hh c Hin).
    reflexivity.
  - apply hd_concat_not_BOM. rewrite map_map. apply Forall_map. exact Hh.
Qed.

Lemma all_bytes_In (b : Byte.byte) : In b all_bytes.
Proof.
  unfold all_bytes. apply in_flat_map. exists (Byte.to_nat b). split.
  - apply in_seq. pose proof (Byte.to_nat_bounded b). lia.
  - rewrite Byte.of_to_nat. left. reflexivity.
Qed.

Definition split_char_check (b0 b1 : Byte.byte) : bool :=
  implb (N.leb 194 (Byte.to_N b0) && N.leb (Byte.to_N b0) 223
         && N.leb 128 (Byte.to_N b1) && N.leb (Byte.to_N b1) 191)
        (jsstring_eqb (read_body [[b0]; [b1]]) [REPLACEMENT; REPLACEMENT]
         && match read_body [[b0; b1]] with
            | [c] => negb (N.eqb c REPLACEMENT)
            | _ => false
            end).

Lemma split_char_all :
  forallb (fun b0 => forallb (fun b1 => split_char_check b0 b1) all_bytes) all_bytes = true.
Proof. vm_compute. reflexivity. Qed.

(** X10: a two-byte UTF-8 character whose bytes arrive in two chunks is
    read as two U+FFFD replacement characters, where the same bytes in one
    chunk give the character itself, a single code unit other than U+FFFD. *)
Theorem read_body_split_char (b0 b1 : Byte.byte) :
  (194 <= Byte.to_N b0 <= 223)%N -> (128 <= Byte.to_N b1 <= 191)%N ->
  read_body [[b0]; [b1]] = [REPLACEMENT; REPLACEMENT] /\
  exists c, read_body [[b0; b1]] = [c] /\ c <> REPLACEMENT.
Proof.
  intros H0 H1. pose proof split_char_all as H.
  rewrite forallb_forall in H. specialize (H b0 (all_bytes_In b0)).
  rewrite forallb_forall in H. specialize (H b1 (all_bytes_In b1)).
  unfold split_char_check in H.
  replace (N.leb 194 (Byte.to_N b0) && N.leb (Byte.to_N b0) 223
           && N.leb 128 (Byte.to_N b1) && N.leb (Byte.to_N b1) 191) with true in H
    by (symmetry; repeat (apply andb_true_intro; split); apply N.leb_le; lia).
  simpl in H. apply andb_prop in H as [Hs Hw]. split.
  - apply jsstring_eqb_eq. exact Hs.
  - destruct (read_body [[b0; b1]]) as [|c [|c' r]]; try discriminate.
    exists c. split; [reflexivity|]. intro Hc. subst. rewrite N.eqb_refl in Hw. discriminate.
Qed.

(** X11: a chunk that begins with the UTF-8 byte-order mark EF BB BF is
    decoded without it; the rest of the chunk is decoded as usual, so a
    second mark right after it is kept. *)
Theorem TextDecoder_decode_bom (bs : list Byte.byte) :
  TextDecoder_decode (Byte.xef :: Byte.xbb :: Byte.xbf :: bs)
  = to_utf16 (utf8_decode (map Byte.to_N bs)).
Proof.
  unfold TextDecoder_decode.
  change (map Byte.to_N (Byte.xef :: Byte.xbb :: Byte.xbf :: bs))
    with ([239; 187; 191]%N ++ map Byte.to_N bs).
  rewrite utf8_decode_app by reflexivity. reflexivity.
Qed.

(** X12: for a commit record whose [repository] and [oid] are strings or
    absent, every diagnostic [review] returns has the URL
    [<endpoint>/<repository>/-/commit/<oid>], with ["undefined"] written for
    an absent field. *)
Theorem review_urls_of_record
    (chat_create : jsstring -> jsstring -> result (list (option jsstring)))
    (endpoint model instruction : jsstring) (fields : list (jsstring * json))
    (repository oid : option jsstring) (ds : list Diagnostic) :
  obj_get (u "repository") fields = option_map JString repository ->
  obj_get (u "oid") fields = option_map JString oid ->
  review chat_create endpoint model instruction (JObject fields) = Ok ds ->
  Forall (fun d => url d = endpoint ++ u "/"
                           ++ match repository with Some r => r | None => u "undefined" end
                           ++ u "/-/commit/"
                           ++ match oid with Some o => o | None => u "undefined" end) ds.
Proof.
  intros Hr Ho H. apply review_Ok in H as [reply H]. apply parseDiagnostic_Ok_urls in H.
  eapply Forall_impl; [|exact H]. intros d Hd. unfold commit_url in Hd.
  cbn [get_prop] in Hd. rewrite Hr, Ho in Hd.
  destruct repository, oid; cbn [option_map template_str json_to_string] in Hd;
    injection Hd as Hd; rewrite <- Hd; reflexivity.
Qed.

Example lite_parse_ex :
  json_lite_parse (uj " [1, {'type': 'commit', 'oid': 'a'}, -20, null, true] ")
  = Some (JArray [JNumber 1; JObject [(u "type", JString (u "commit")); (u "oid", JString (u "a"))];
                  JNumber (-20); JNull; JBool true]).
Proof. vm_compute. reflexivity. Qed.

(** ** Concrete inputs

    The decoder is [json_lite_parse] throughout; every JSON text used is in
    the subset it shares with [JSON.parse]. *)

Ltac no_LF := vm_compute; intuition discriminate.

Ltac in_concrete := vm_compute; repeat (first [left; reflexivity | right]).

(** C1, counterexample: one block with one [event:] line and one [data:]
    line holding the valid JSON [0] yields no event at all. *)
Lemma parseSSE_blocks_falsy_counterexample :
  block_fields json_lite_parse [u "event: x"; u "data: 0"] (u "x") (JNumber 0) /\
  parseSSE json_lite_parse (List.concat (map serialize_block [[u "event: x"; u "data: 0"]]))
  = Ok [].
Proof.
  split; [|vm_compute; reflexivity].
  split; [repeat constructor; try discriminate; no_LF|].
  exists (u "event: x"), (u "data: 0"). vm_compute. repeat split.
Qed.

Lemma parseSSE_well_formed_blocks_witness :
  parseSSE json_lite_parse
    (List.concat (map serialize_block
       [[u "event: matches"; u "data: [1]"]; [u "id: 7"; u "data: {}"; u "event: done"]]))
  = Ok [mkSSE (u "matches") (JArray [JNumber 1]); mkSSE (u "done") (JObject [])].
Proof.
  apply (parseSSE_well_formed_blocks json_lite_parse _
           [(u "matches", JArray [JNumber 1]); (u "done", JObject [])]).
  repeat constructor; try discriminate; try no_LF.
  - exists (u "event: matches"), (u "data: [1]"). vm_compute. repeat split.
  - exists (u "event: done"), (u "data: {}"). vm_compute. repeat split.
Defined.

(** C2, counterexample: the first block has no [data:] line; its name
    ["a"] is not discarded at its blank line and is emitted with the
    payload of the next block, which has no [event:] line. *)
Lemma parseSSE_incomplete_block_counterexample :
  parseSSE json_lite_parse (u "event: a" ++ nl ++ nl ++ u "data: 1" ++ nl ++ nl)
  = Ok [mkSSE (u "a") (JNumber 1)].
Proof. vm_compute. reflexivity. Qed.

Lemma parseSSE_incomplete_block_kept_witness :
  run json_lite_parse ([], mkPartial (Some (u "a")) None) ([u "data: 1"] ++ [[]])
  = Ok ([mkSSE (u "a") (JNumber 1)], empty_partial).
Proof.
  destruct (parseSSE_incomplete_block_kept json_lite_parse [] (mkPartial (Some (u "a")) None)
              [u "data: 1"]) as [H _].
  - repeat constructor; discriminate.
  - intros l Hin _. destruct Hin as [<-|[]]. vm_compute. discriminate.
  - rewrite H. vm_compute. reflexivity.
Defined.

(** C3, counterexample: a final block with an [event:] line and a valid
    [data:] line, not followed by a blank line, is not flushed when its
    payload is [0]. *)
Lemma parseSSE_final_block_counterexample :
  json_lite_parse (u "0") = Some (JNumber 0) /\
  parseSSE json_lite_parse (u "event: x" ++ nl ++ u "data: 0") = Ok [].
Proof. split; vm_compute; reflexivity. Qed.

Lemma parseSSE_final_block_flush_witness :
  parseSSE json_lite_parse
    (join_lines ([u "event: a"; u "data: 1"; []] ++ [u "event: b"; u "data: 2"]))
  = Ok ([mkSSE (u "a") (JNumber 1)] ++ [mkSSE (u "b") (JNumber 2)]).
Proof.
  apply (parseSSE_final_block_flush json_lite_parse _ _ _ empty_partial).
  - repeat constructor; no_LF.
  - vm_compute. reflexivity.
  - split; [repeat constructor; try discriminate; no_LF|].
    exists (u "event: b"), (u "data: 2"). vm_compute. repeat split.
  - reflexivity.
  - reflexivity.
Defined.

Lemma parseSSE_malformed_data_fails_witness :
  exists t, parseSSE json_lite_parse
              (u "event: a" ++ nl ++ u "data: 1" ++ nl ++ nl ++ u "data: {" ++ nl)
            = Err (SyntaxError t).
Proof.
  apply (parseSSE_malformed_data_fails json_lite_parse _ (u "data: {")).
  - in_concrete.
  - reflexivity.
  - vm_compute. reflexivity.
Defined.

(** C5, counterexample: a ["matches"] event whose data array holds [null]
    makes the filter throw a [TypeError] ([null.type]) where the spec's
    filter gives the empty list. *)
Lemma commitResults_null_counterexample :
  parseSSE json_lite_parse (u "event: matches" ++ nl ++ u "data: [null]" ++ nl ++ nl)
  = Ok [mkSSE (u "matches") (JArray [JNull])] /\
  spec_commit_results [mkSSE (u "matches") (JArray [JNull])] = [] /\
  searchCommits_of_body json_lite_parse
    (u "event: matches" ++ nl ++ u "data: [null]" ++ nl ++ nl) = Err TypeError.
Proof. split; [|split]; vm_compute; reflexivity. Qed.

Lemma commitResults_spec_witness :
  commitResults repeated_commit_events = Ok (spec_commit_results repeated_commit_events).
Proof.
  apply (proj1 commitResults_spec).
  intros ev Hin. simpl in Hin.
  destruct Hin as [<-|[<-|[<-|[]]]]; intro He; try (vm_compute in He; discriminate);
    eexists; (split; [reflexivity|no_LF]).
Defined.

(** C6, counterexample: two events with distinct names and payloads; the
    second, whose payload is [0], does not come back. *)
Lemma parseSSE_roundtrip_counterexample :
  parseSSE json_lite_parse
    (serializeSSE json_lite_stringify [mkSSE (u "a") (JNumber 1); mkSSE (u "b") (JNumber 0)])
  = Ok [mkSSE (u "a") (JNumber 1)].
Proof. vm_compute. reflexivity. Qed.

Lemma parseSSE_serializeSSE_roundtrip_witness :
  parseSSE json_lite_parse
    (serializeSSE json_lite_stringify
       [mkSSE (u "matches") (JArray [record_of "commit" "a"]);
        mkSSE (u "progress") (JObject [(u "done", JBool true)])])
  = Ok [mkSSE (u "matches") (JArray [record_of "commit" "a"]);
        mkSSE (u "progress") (JObject [(u "done", JBool true)])].
Proof.
  apply parseSSE_serializeSSE_roundtrip.
  repeat constructor; try no_LF; vm_compute; reflexivity.
Defined.

(** C8, counterexample: a block whose lines end in "\r" still passes the
    [event:] and [data:] prefix tests and yields its event. *)
Lemma parseSSE_crlf_counterexample :
  is_event_line (u "event: x" ++ [CR]) = true /\
  is_data_line (u "data: 1" ++ [CR]) = true /\
  parseSSE json_lite_parse (u "event: x" ++ crlf ++ u "data: 1" ++ crlf ++ crlf)
  = Ok [mkSSE (u "x") (JNumber 1)].
Proof. split; [|split]; vm_compute; reflexivity. Qed.

Lemma parseSSE_crlf_lines_witness :
  parseSSE json_lite_parse
    (List.concat (map (fun l => l ++ crlf)
       [u "event: a"; u "data: 1"; []; u "event: b"; u "data: 2"; []]))
  = Ok [mkSSE (u "b") (JNumber 2)].
Proof.
  destruct (parseSSE_crlf_lines json_lite_parse) as (_ & _ & _ & H).
  rewrite H.
  - vm_compute. reflexivity.
  - repeat constructor; no_LF.
  - intros l Hin Hd. simpl in Hin.
    repeat (destruct Hin as [<-|Hin]; [vm_compute; discriminate|]). destruct Hin.
Defined.

Lemma parseSSE_falsy_block_not_emitted_witness :
  exists cur', run json_lite_parse ([], empty_partial) [u "event: x"; u "data: 0"] = Ok ([], cur') /\
    p_event cur' = Some (event_value (u "event: x")) /\ p_data cur' = Some (JNumber 0) /\
    step json_lite_parse ([], cur') [] = Ok ([], cur') /\ finish ([], cur') = [].
Proof.
  apply (parseSSE_falsy_block_not_emitted json_lite_parse [] empty_partial _
           (u "event: x") (u "data: 0")).
  - repeat constructor; discriminate.
  - vm_compute. reflexivity.
  - vm_compute. reflexivity.
  - vm_compute. reflexivity.
  - right. reflexivity.
Defined.

(** ** Instances of the further properties *)

Lemma parseDiagnostic_fields_witness :
  parseDiagnostic (u "https://h") sample_commit
    (u "see " ++ diagnostic_xml (u "a.ts") (u "fix") ++ u " end")
  = Ok [mkDiagnostic (u "fix") (u "a.ts") (u "https://h/r/-/commit/x")] /\
  Forall (fun d => filepath d <> [] /\ ~ In 34%N (filepath d) /\
                   text d <> [] /\ ~ In 60%N (text d) /\
                   commit_url (u "https://h") sample_commit = Ok (url d))
    [mkDiagnostic (u "fix") (u "a.ts") (u "https://h/r/-/commit/x")].
Proof.
  split; [vm_compute; reflexivity|].
  apply (parseDiagnostic_fields (u "https://h") sample_commit
           (u "see " ++ diagnostic_xml (u "a.ts") (u "fix") ++ u " end")).
  vm_compute. reflexivity.
Defined.

Lemma parseDiagnostic_roundtrip_witness :
  parseDiagnostic (u "https://h") sample_commit
    (List.concat (map (fun '(sep, (path, body)) => sep ++ diagnostic_xml path body)
       [(u "see ", (u "a.ts", u "fix")); ([], (u "b.ts", u "rename"))])
     ++ u " end")
  = Ok [mkDiagnostic (u "fix") (u "a.ts") (u "https://h/r/-/commit/x");
        mkDiagnostic (u "rename") (u "b.ts") (u "https://h/r/-/commit/x")].
Proof.
  apply (parseDiagnostic_roundtrip (u "https://h") (u "https://h/r/-/commit/x") sample_commit
           [(u "see ", (u "a.ts", u "fix")); ([], (u "b.ts", u "rename"))] (u " end")).
  - vm_compute. reflexivity.
  - repeat constructor; vm_compute; intuition discriminate.
  - vm_compute. intuition discriminate.
Defined.

Lemma formatContext_lines_witness :
  exists s,
    formatContext (JObject [(u "results", JArray (map (fun '(repo, path, chunk, startLine, endLine) =>
                      context_result repo path chunk startLine endLine)
                      [(u "r", u "a.ts", u "x" ++ nl ++ u "y", 1%Z, 2%Z)]))]) = Ok s /\
    split_nl s = List.concat (map (fun '(repo, path, chunk, startLine, endLine) =>
                   [context_item_header repo path startLine endLine] ++ split_nl chunk
                   ++ [u "</CONTEXT_ITEM>"]) [(u "r", u "a.ts", u "x" ++ nl ++ u "y", 1%Z, 2%Z)]).
Proof.
  apply (formatContext_lines [(u "r", u "a.ts", u "x" ++ nl ++ u "y", 1%Z, 2%Z)]).
  - discriminate.
  - repeat constructor; vm_compute; intuition discriminate.
Defined.

Lemma formatContext_missing_blob_witness :
  formatContext (JObject [(u "results", JArray [context_result (u "r") (u "a.ts") (u "x") 1 2;
                                                JObject [(u "path", JString (u "b.ts"))]])])
  = Err TypeError.
Proof.
  apply (formatContext_missing_blob _ (JObject [(u "path", JString (u "b.ts"))])).
  - right. left. reflexivity.
  - right. vm_compute. reflexivity.
Defined.

Lemma batch_commits_count_witness :
  batch_commits [JNull; JBool true; JNull] ([32%N] ++ show_N 2 ++ u "x")
  = firstn (N.to_nat 2) [JNull; JBool true; JNull].
Proof.
  apply batch_commits_count.
  - repeat constructor.
  - reflexivity.
Defined.

Lemma batch_commits_negative_witness :
  batch_commits [JNull; JBool true; JNull] ([] ++ [45%N] ++ show_N 1 ++ [])
  = firstn (List.length [JNull; JBool true; JNull] - N.to_nat 1) [JNull; JBool true; JNull].
Proof.
  apply batch_commits_negative.
  - lia.
  - constructor.
  - exact I.
Defined.

Lemma batch_commits_nan_witness :
  batch_commits [JNull; JBool true; JNull] (u "all") = [].
Proof.
  apply batch_commits_nan. repeat constructor.
Defined.

Lemma batch_review_urls_witness :
  exists commits c,
    searchCommits_of_body json_lite_parse
      (u "event: matches" ++ nl ++ uj "data: [{'type':'commit','repository':'r','oid':'x'}]"
       ++ nl ++ nl) = Ok commits /\
    In c (batch_commits commits (u "5")) /\
    (exists t, get_type c = Ok t /\ is_commit_type t = true) /\
    commit_url (u "https://h") c = Ok (url (mkDiagnostic (u "fix") (u "a.ts") (u "https://h/r/-/commit/x"))).
Proof.
  apply (batch_review_urls sample_chat json_lite_parse (u "https://h") (u "m") (u "check")
           (u "event: matches" ++ nl ++ uj "data: [{'type':'commit','repository':'r','oid':'x'}]"
            ++ nl ++ nl) (u "5")
           [mkDiagnostic (u "fix") (u "a.ts") (u "https://h/r/-/commit/x")]).
  - vm_compute. reflexivity.
  - left. reflexivity.
Defined.

Lemma read_body_chunks_witness :
  read_body [[Byte.xc3; Byte.xa9]; [Byte.x61]] = TextDecoder_decode [Byte.xc3; Byte.xa9; Byte.x61].
Proof.
  apply (read_body_chunks [[Byte.xc3; Byte.xa9]; [Byte.x61]]).
  - repeat constructor.
  - constructor; [vm_compute; discriminate|constructor].
Defined.

Lemma read_body_split_char_witness :
  read_body [[Byte.xc3]; [Byte.xa9]] = [REPLACEMENT; REPLACEMENT] /\
  exists c, read_body [[Byte.xc3; Byte.xa9]] = [c] /\ c <> REPLACEMENT.
Proof.
  apply read_body_split_char; vm_compute; split; discriminate.
Defined.

Lemma review_urls_of_record_witness :
  Forall (fun d => url d = u "https://h" ++ u "/" ++ u "r" ++ u "/-/commit/" ++ u "undefined")
    [mkDiagnostic (u "fix") (u "a.ts") (u "https://h/r/-/commit/undefined")].
Proof.
  apply (review_urls_of_record sample_chat (u "https://h") (u "m") (u "check")
           [(u "type", JString (u "commit")); (u "repository", JString (u "r"))]
           (Some (u "r")) None).
  - reflexivity.
  - reflexivity.
  - vm_compute. reflexivity.
Defined.
